(** * A shallow embedding of [genetic_algorithm.py]

    The class [GeneticNHL] searches, by random generation and crossover,
    for daily-fantasy hockey lineups.  Its methods are embedded below as
    functions in a state-and-exception monad over a [world]: the object
    itself ([self]) and how far the run has read into its environment,
    the values behind [random.randint] and the readings of [time.time].
    A method that raises yields [Err] and no world: what the object held
    when an exception escaped is not tracked.

    Python values keep their shape: a player is the five-key dict that
    [load_roster] builds, a lineup is a heterogeneous list (player dicts,
    then an int and a float once [check_valid] has accepted it), and
    exceptions are the [Err] results of the monad. *)

From Stdlib Require Import Ascii QArith Qround Sorted.
From stdpp Require Import base decidable option list strings numbers gmap.

Open Scope Z_scope.

(** ** Exceptions and results *)

(** The exceptions the modelled code can raise.  [OutOfFuel] is the only
    one without a Python counterpart: it marks the bound put on the
    [while] loop of [run]. *)
Inductive error : Set :=
  | IndexError | ValueError | TypeError | StopIteration | RecursionError
  | OutOfFuel.

Inductive result (A : Type) : Type :=
  | Ok (a : A)
  | Err (e : error).
Arguments Ok {A} a.
Arguments Err {A} e.

#[global] Instance result_ret : MRet result := λ A a, Ok a.
#[global] Instance result_bind : MBind result := λ A B f r,
  match r with Ok a => f a | Err e => Err e end.

(** ** The built-ins taken as given

    Floating-point arithmetic, and the parsing done by [int(...)] and
    [float(...)], are not defined here: the development is parametric in
    them and in the type [float] itself.  [fsum xs] is [sum(xs)] on
    floats, [round2 x] is [round(x, 2)], the comparisons are Python's
    [<], [==] and [!= 0] on numbers. *)
Class Builtins (float : Type) : Type := {
  fsum : list float → float;
  round2 : float → float;
  float_nonzero : float → bool;
  float_ltb : float → float → bool;
  float_eqb : float → float → bool;
  int_lt_float : Z → float → bool;
  float_lt_int : float → Z → bool;
  int_eq_float : Z → float → bool;
  py_int : string → option Z;
  py_float : string → option float;
  (** the one law of floats that is relied upon *)
  float_ltb_asym : ∀ x y, float_ltb x y = true → float_ltb y x = false
}.

(** The environment a run takes place in: [rand] is the sequence of raw
    values behind successive [random.randint] calls, [clock] the sequence
    of readings of [time.time], in ticks. *)
Class Environment : Type := {
  rand : nat → Z;
  clock : nat → Z
}.

(** A decimal instance, used to run the code on concrete rosters: floats
    are fractions in lowest terms, which is exact on two-decimal data. *)
Module Decimal.

Definition digit (c : ascii) : option Z :=
  let n := Z.of_nat (nat_of_ascii c) in
  if decide (48 ≤ n ≤ 57) then Some (n - 48) else None.

Fixpoint digits (acc : Z) (s : string) : option Z :=
  match s with
  | EmptyString => Some acc
  | String c s' => d ← digit c; digits (10 * acc + d) s'
  end.

Definition natural (s : string) : option Z :=
  match s with EmptyString => None | _ => digits 0 s end.

Definition int (s : string) : option Z :=
  match s with
  | String "-"%char s' => Z.opp <$> natural s'
  | _ => natural s
  end.

Fixpoint split_dot (s : string) : string * option string :=
  match s with
  | EmptyString => (EmptyString, None)
  | String "."%char s' => (EmptyString, Some s')
  | String c s' => let '(a, b) := split_dot s' in (String c a, b)
  end.

Definition unsigned (s : string) : option Q :=
  match split_dot s with
  | (a, None) => n ← natural a; Some (inject_Z n)
  | (a, Some b) =>
      n ← natural a; m ← natural b;
      Some (Qred (inject_Z n + inject_Z m / inject_Z (10 ^ Z.of_nat (String.length b))))
  end.

Definition parse (s : string) : option Q :=
  match s with
  | String "-"%char s' => (λ x, Qred (- x)) <$> unsigned s'
  | _ => unsigned s
  end.

(** To the nearest hundredth. *)
Definition round (x : Q) : Q :=
  Qred (inject_Z (Qfloor (x * inject_Z 100 + (1 # 2))) / inject_Z 100).

Definition ltb (x y : Q) : bool := negb (Qle_bool y x).

Lemma ltb_asym (x y : Q) : ltb x y = true → ltb y x = false.
Proof.
  unfold ltb. intros Hxy%negb_true_iff. apply negb_false_iff.
  apply Qle_bool_iff, Qlt_le_weak, Qnot_le_lt.
  intros Hle%Qle_bool_iff. congruence.
Qed.

Definition builtins : Builtins Q := {|
  fsum := foldr (λ x acc, Qred (x + acc)) 0%Q;
  round2 := round;
  float_nonzero := λ x, negb (Qeq_bool x 0);
  float_ltb := ltb;
  float_eqb := Qeq_bool;
  int_lt_float := λ n x, ltb (inject_Z n) x;
  float_lt_int := λ x n, ltb x (inject_Z n);
  int_eq_float := λ n x, Qeq_bool (inject_Z n) x;
  py_int := int;
  py_float := parse;
  float_ltb_asym := ltb_asym
|}.

End Decimal.

Section Model.
Context {float : Type} `{B : Builtins float} `{Env : Environment}.

(** ** Data *)

(** The dict built by [load_roster] for one CSV row. *)
Record player : Type := {
  name : string;
  position : ascii;
  salary : Z;
  teamAbbrev : string;
  avePoints : float
}.

(** An element of a lineup list: a player dict, or one of the two numbers
    that [check_valid] appends ([isinstance(player, dict)] in [save_file]
    tells them apart). *)
Inductive cell : Type :=
  | Player (p : player)
  | Int (n : Z)
  | Float (x : float).

(** The attributes set by [__init__]. *)
Record GeneticNHL : Type := {
  num_lineups : Z;
  duration : Z;
  goalies : list player;
  centers : list player;
  wingers : list player;
  defencemen : list player;
  utils : list player;
  lineups : list (list cell)
}.

Definition init (n d : Z) : GeneticNHL :=
  {| num_lineups := n; duration := d; goalies := []; centers := [];
     wingers := []; defencemen := []; utils := []; lineups := [] |}.

(** The object together with two cursors into its environment: how many
    random values and how many clock readings have been consumed. *)
Record world : Type := {
  self : GeneticNHL;
  rand_pos : nat;
  clock_pos : nat
}.

Definition with_self (g : GeneticNHL) (w : world) : world :=
  {| self := g; rand_pos := rand_pos w; clock_pos := clock_pos w |}.

Definition set_lineups (ls : list (list cell)) (g : GeneticNHL) : GeneticNHL :=
  {| num_lineups := num_lineups g; duration := duration g;
     goalies := goalies g; centers := centers g; wingers := wingers g;
     defencemen := defencemen g; utils := utils g; lineups := ls |}.

(** ** The monad of methods *)

Definition M (A : Type) : Type := world → result (A * world).

#[global] Instance M_ret : MRet M := λ A a w, Ok (a, w).
#[global] Instance M_bind : MBind M := λ A B f m w,
  match m w with Ok (a, w') => f a w' | Err e => Err e end.

Definition throw {A} (e : error) : M A := λ _, Err e.
Definition liftR {A} (r : result A) : M A := λ w,
  match r with Ok a => Ok (a, w) | Err e => Err e end.
Definition gets {A} (f : GeneticNHL → A) : M A := λ w, Ok (f (self w), w).
Definition modify (f : GeneticNHL → GeneticNHL) : M unit := λ w,
  Ok (tt, with_self (f (self w)) w).

(** ** Python list operations *)

(** [l[i]], negative indices counting from the end. *)
Definition py_index {A} (l : list A) (i : Z) : result A :=
  let n := Z.of_nat (length l) in
  let j := if decide (i < 0) then i + n else i in
  if decide (0 ≤ j < n) then
    match l !! Z.to_nat j with Some a => Ok a | None => Err IndexError end
  else Err IndexError.

(** [l[:n]]. *)
Definition py_take {A} (n : Z) (l : list A) : list A :=
  if decide (0 ≤ n) then take (Z.to_nat n) l
  else take (length l - Z.to_nat (- n))%nat l.

Definition sum_Z (l : list Z) : Z := foldr Z.add 0 l.

(** [len(set(l))], on strings: the number of distinct elements of [l]
    (the size of the set of its elements, see [distinct_size]). *)
Definition distinct (l : list string) : nat :=
  length (remove_dups l).

(** ** [random.randint] and [time.time] *)

(** [random.randint(lo, hi)]: [ValueError] on an empty range, otherwise
    the next raw value brought into [lo..hi]. *)
Definition randint (lo hi : Z) : M Z := λ w,
  if decide (hi < lo) then Err ValueError
  else Ok (lo + rand (rand_pos w) `mod` (hi - lo + 1),
           {| self := self w; rand_pos := S (rand_pos w);
              clock_pos := clock_pos w |}).

Definition time_time : M Z := λ w,
  Ok (clock (clock_pos w),
      {| self := self w; rand_pos := rand_pos w;
         clock_pos := S (clock_pos w) |}).

(** [seq[random.randint(0, len(seq) - 1)]] *)
Definition random_item {A} (l : list A) : M A :=
  i ← randint 0 (Z.of_nat (length l) - 1);
  liftR (py_index l i).

(** [self.<role>[random.randint(0, len(self.<role>) - 1)]] *)
Definition pick (role : GeneticNHL → list player) : M player :=
  l ← gets role; random_item l.

(** ** [check_valid] *)

(** [player['...']] needs a dict: subscripting a number is a [TypeError]. *)
Definition as_player (c : cell) : result player :=
  match c with Player p => Ok p | _ => Err TypeError end.

Definition total_salary (ps : list player) : Z := sum_Z (salary <$> ps).
Definition projection (ps : list player) : float := round2 (fsum (avePoints <$> ps)).
Definition num_teams (ps : list player) : nat := distinct (teamAbbrev <$> ps).
Definition num_players (ps : list player) : nat := distinct (name <$> ps).

(** The test of the [if] in [check_valid]. *)
Definition within_rules (ps : list player) : Prop :=
  total_salary ps < 50000 ∧ (3 ≤ num_teams ps)%nat ∧ num_players ps = 9%nat.

#[global] Instance within_rules_dec ps : Decision (within_rules ps).
Proof. unfold within_rules. apply _. Defined.

(** [check_valid(lineup)].  The list [lineup] is mutated in place by
    [extend], so the result pairs the truth value of what is returned with
    the content of the argument list after the call; when the truth value
    is [true] the returned object is that very list, otherwise it is
    [False]. *)
Definition check_valid (lineup : list cell) : M (bool * list cell) :=
  ps ← liftR (mapM as_player lineup);
  if decide (within_rules ps)
  then mret (true, lineup ++ [Int (total_salary ps); Float (projection ps)])
  else mret (false, lineup).

(** ** [generate_lineup] *)

(** [depth] is the number of nested calls the interpreter still allows:
    the retry is a recursive call, and Python raises [RecursionError]
    when the stack is exhausted. *)
Fixpoint generate_lineup (depth : nat) : M (list cell) :=
  match depth with
  | O => throw RecursionError
  | S d =>
      c1 ← pick centers; c2 ← pick centers;
      w1 ← pick wingers; w2 ← pick wingers; w3 ← pick wingers;
      d1 ← pick defencemen; d2 ← pick defencemen;
      g ← pick goalies;
      u ← pick utils;
      '(ok, lineup) ← check_valid (Player <$> [c1; c2; w1; w2; w3; d1; d2; g; u]);
      if ok : bool then mret lineup else generate_lineup d
  end.

(** ** [mate_lineups] *)

(** The five local lists built at the top of [mate_lineups]. *)
Record pools : Type := {
  pool_centers : list cell;
  pool_wingers : list cell;
  pool_defencemen : list cell;
  pool_goalies : list cell;
  pool_utils : list cell
}.

Definition mate_pools (lineup1 lineup2 : list cell) : M pools :=
  a0 ← liftR (py_index lineup1 0); a1 ← liftR (py_index lineup1 1);
  b0 ← liftR (py_index lineup2 0); b1 ← liftR (py_index lineup2 1);
  xc ← pick centers;
  a2 ← liftR (py_index lineup1 2); a3 ← liftR (py_index lineup1 3);
  a4 ← liftR (py_index lineup1 4);
  b2 ← liftR (py_index lineup2 2); b3 ← liftR (py_index lineup2 3);
  b4 ← liftR (py_index lineup2 4);
  xw ← pick wingers;
  a5 ← liftR (py_index lineup1 5); a6 ← liftR (py_index lineup1 6);
  b5 ← liftR (py_index lineup2 5); b6 ← liftR (py_index lineup2 6);
  xd ← pick defencemen;
  a7 ← liftR (py_index lineup1 7); b7 ← liftR (py_index lineup2 7);
  xg ← pick goalies;
  a8 ← liftR (py_index lineup1 8); b8 ← liftR (py_index lineup2 8);
  xu ← pick utils;
  mret {| pool_centers := [a0; a1; b0; b1; Player xc];
          pool_wingers := [a2; a3; a4; b2; b3; b4; Player xw];
          pool_defencemen := [a5; a6; b5; b6; Player xd];
          pool_goalies := [a7; b7; Player xg];
          pool_utils := [a8; b8; Player xu] |}.

(** The inner function [grab_players(position, n)]: the players drawn,
    together with what is left of the list [position], which [del]
    shrinks in place. *)
Fixpoint grab_players (pool : list cell) (n : nat) : M (list cell * list cell) :=
  match n with
  | O => mret ([], pool)
  | S n' =>
      i ← randint 0 (Z.of_nat (length pool) - 1);
      c ← liftR (py_index pool i);
      '(players, rest) ← grab_players (delete (Z.to_nat i) pool) n';
      mret (c :: players, rest)
  end.

Definition mate_select (ps : pools) : M (list cell) :=
  '(cs, _) ← grab_players (pool_centers ps) 2;
  '(ws, _) ← grab_players (pool_wingers ps) 3;
  '(ds, _) ← grab_players (pool_defencemen ps) 2;
  '(gs, _) ← grab_players (pool_goalies ps) 1;
  '(us, _) ← grab_players (pool_utils ps) 1;
  mret (cs ++ ws ++ ds ++ gs ++ us).

(** One pass through the body of [mate_lineups], up to the validity
    test. *)
Definition mate_attempt (lineup1 lineup2 : list cell) : M (pools * (bool * list cell)) :=
  ps ← mate_pools lineup1 lineup2;
  cand ← mate_select ps;
  r ← check_valid cand;
  mret (ps, r).

Fixpoint mate_lineups (depth : nat) (lineup1 lineup2 : list cell) : M (list cell) :=
  match depth with
  | O => throw RecursionError
  | S d =>
      '(_, (ok, lineup)) ← mate_attempt lineup1 lineup2;
      if ok : bool then mret lineup else mate_lineups d lineup1 lineup2
  end.

(** ** Sorting by score: [list.sort(key=lambda x: x[-1], reverse=True)] *)

Definition score (l : list cell) : result cell := py_index l (-1).

(** [a < b] on two keys: numbers compare, dicts do not. *)
Definition key_lt (a b : cell) : result bool :=
  match a, b with
  | Float x, Float y => Ok (float_ltb x y)
  | Int m, Int n => Ok (bool_decide (m < n))
  | Int m, Float y => Ok (int_lt_float m y)
  | Float x, Int n => Ok (float_lt_int x n)
  | _, _ => Err TypeError
  end.

(** The sort is stable and uses [<] alone.  It is modelled by insertion:
    an element moves past those of strictly greater key, so equal keys
    keep their order; this is the list that [sort] returns whenever [<]
    orders the keys (no NaN among them).  Keys are computed first, for
    the whole list. *)
Fixpoint insert_desc (x : cell * list cell) (l : list (cell * list cell))
    : result (list (cell * list cell)) :=
  match l with
  | [] => Ok [x]
  | y :: l' =>
      b ← key_lt x.1 y.1;
      if b : bool then (r ← insert_desc x l'; mret (y :: r)) else Ok (x :: y :: l')
  end.

Fixpoint sort_desc (l : list (cell * list cell)) : result (list (cell * list cell)) :=
  match l with
  | [] => Ok []
  | x :: l' => s ← sort_desc l'; insert_desc x s
  end.

Definition with_key (x : list cell) : result (cell * list cell) :=
  k ← score x; mret (k, x).

Definition sort_by_score (ls : list (list cell)) : result (list (list cell)) :=
  keyed ← mapM with_key ls;
  sorted ← sort_desc keyed;
  Ok (sorted.*2).

(** ** [get_lineups] and [run] *)

(** [self.lineups.append(l)] *)
Definition append_lineup (l : list cell) : M unit :=
  modify (λ g, set_lineups (lineups g ++ [l]) g).

Fixpoint replicateM {A} (n : nat) (m : M A) : M (list A) :=
  match n with
  | O => mret []
  | S n' => x ← m; xs ← replicateM n' m; mret (x :: xs)
  end.

Definition get_lineups (depth : nat) : M unit :=
  batch ← replicateM 10 (generate_lineup depth);
  new_lineups ← liftR (sort_by_score batch);
  l0 ← liftR (py_index new_lineups 0); _ ← append_lineup l0;
  l1 ← liftR (py_index new_lineups 1); _ ← append_lineup l1;
  l2 ← liftR (py_index new_lineups 2); _ ← append_lineup l2;
  p0 ← liftR (py_index new_lineups 0); p1 ← liftR (py_index new_lineups 1);
  m01 ← mate_lineups depth p0 p1; _ ← append_lineup m01;
  p0 ← liftR (py_index new_lineups 0); p2 ← liftR (py_index new_lineups 2);
  m02 ← mate_lineups depth p0 p2; _ ← append_lineup m02;
  p1 ← liftR (py_index new_lineups 1); p2 ← liftR (py_index new_lineups 2);
  m12 ← mate_lineups depth p1 p2; _ ← append_lineup m12;
  f1 ← generate_lineup depth; _ ← append_lineup f1;
  f2 ← generate_lineup depth; _ ← append_lineup f2;
  f3 ← generate_lineup depth; _ ← append_lineup f3;
  f4 ← generate_lineup depth; append_lineup f4.

(** [self.lineups.sort(key=lambda x: x[-1], reverse=True)] *)
Definition sort_lineups : M unit :=
  ls ← gets lineups;
  sorted ← liftR (sort_by_score ls);
  modify (set_lineups sorted).

(** [self.lineups = self.lineups[:self.num_lineups]] *)
Definition trim_lineups : M unit :=
  modify (λ g, set_lineups (py_take (num_lineups g) (lineups g)) g).

(** The body of the [while] loop of [run]: the three statements are all
    inside the loop. *)
Definition round_body (depth : nat) : M unit :=
  _ ← get_lineups depth; _ ← sort_lineups; trim_lineups.

(** The [while] loop; [fuel] bounds the number of times its test is
    evaluated. *)
Fixpoint run_loop (fuel depth : nat) (runtime : Z) : M unit :=
  match fuel with
  | O => throw OutOfFuel
  | S f =>
      t ← time_time;
      if decide (t < runtime)
      then _ ← round_body depth; run_loop f depth runtime
      else mret tt
  end.

Definition run (fuel depth : nat) : M unit :=
  t ← time_time;
  d ← gets duration;
  run_loop fuel depth (t + d).

(** ** [load_roster] *)

Definition of_option {A} (e : error) (o : option A) : result A :=
  match o with Some a => Ok a | None => Err e end.

(** [s[0]] on a string. *)
Definition first_char (s : string) : result ascii :=
  match s with String c _ => Ok c | EmptyString => Err IndexError end.

(** The dict built from one row. *)
Definition read_player (row : list string) : result player :=
  nm ← py_index row 11;
  descr ← py_index row 14;
  pos ← first_char descr;
  sal_s ← py_index row 15;
  sal ← of_option ValueError (py_int sal_s);
  team ← py_index row 17;
  ave_s ← py_index row 18;
  ave ← of_option ValueError (py_float ave_s);
  mret {| name := nm; position := pos; salary := sal; teamAbbrev := team;
          avePoints := ave |}.

Definition add_goalie (p : player) (g : GeneticNHL) : GeneticNHL :=
  {| num_lineups := num_lineups g; duration := duration g;
     goalies := goalies g ++ [p]; centers := centers g; wingers := wingers g;
     defencemen := defencemen g; utils := utils g; lineups := lineups g |}.
Definition add_center (p : player) (g : GeneticNHL) : GeneticNHL :=
  {| num_lineups := num_lineups g; duration := duration g;
     goalies := goalies g; centers := centers g ++ [p]; wingers := wingers g;
     defencemen := defencemen g; utils := utils g; lineups := lineups g |}.
Definition add_winger (p : player) (g : GeneticNHL) : GeneticNHL :=
  {| num_lineups := num_lineups g; duration := duration g;
     goalies := goalies g; centers := centers g; wingers := wingers g ++ [p];
     defencemen := defencemen g; utils := utils g; lineups := lineups g |}.
Definition add_defenceman (p : player) (g : GeneticNHL) : GeneticNHL :=
  {| num_lineups := num_lineups g; duration := duration g;
     goalies := goalies g; centers := centers g; wingers := wingers g;
     defencemen := defencemen g ++ [p]; utils := utils g; lineups := lineups g |}.
Definition add_util (p : player) (g : GeneticNHL) : GeneticNHL :=
  {| num_lineups := num_lineups g; duration := duration g;
     goalies := goalies g; centers := centers g; wingers := wingers g;
     defencemen := defencemen g; utils := utils g ++ [p]; lineups := lineups g |}.

Definition is_role (c : ascii) (p : player) : bool := bool_decide (position p = c).

(** The [if player['avePoints'] != 0:] block. *)
Definition store_player (p : player) (g : GeneticNHL) : GeneticNHL :=
  if float_nonzero (avePoints p) then
    let g1 :=
      if is_role "G" p then add_goalie p g
      else if is_role "C" p then add_center p g
      else if is_role "W" p then add_winger p g
      else if is_role "D" p then add_defenceman p g
      else g in
    if negb (is_role "G" p) then add_util p g1 else g1
  else g.

Fixpoint load_rows (rows : list (list string)) (g : GeneticNHL) : result GeneticNHL :=
  match rows with
  | [] => Ok g
  | row :: rest => p ← read_player row; load_rows rest (store_player p g)
  end.

(** [for _ in range(8): next(reader)] *)
Definition skip_header (rows : list (list string)) : result (list (list string)) :=
  if decide (length rows < 8)%nat then Err StopIteration else Ok (drop 8 rows).

(** [load_roster], on the rows that [csv.reader] yields for the file. *)
Definition load_roster (rows : list (list string)) : M unit :=
  body ← liftR (skip_header rows);
  g ← gets id;
  g' ← liftR (load_rows body g);
  modify (λ _, g').

(** ** [save_file] *)

(** A cell of an output row: a player has been replaced by its name. *)
Inductive field : Type :=
  | FStr (s : string)
  | FInt (n : Z)
  | FFloat (x : float).

Definition to_field (c : cell) : field :=
  match c with
  | Player p => FStr (name p)
  | Int n => FInt n
  | Float x => FFloat x
  end.

(** Python's [==] on two cells of a row. *)
Definition field_eqb (a b : field) : bool :=
  match a, b with
  | FStr s, FStr t => bool_decide (s = t)
  | FInt m, FInt n => bool_decide (m = n)
  | FFloat x, FFloat y => float_eqb x y
  | FInt m, FFloat y => int_eq_float m y
  | FFloat x, FInt n => int_eq_float n x
  | _, _ => false
  end.

(** Python's [==] on two rows. *)
Fixpoint row_eqb (r1 r2 : list field) : bool :=
  match r1, r2 with
  | [], [] => true
  | a :: r1', b :: r2' => field_eqb a b && row_eqb r1' r2'
  | _, _ => false
  end.

(** The condition [lineups[i] != lineups[i+1]]. *)
Definition differs_from_next (rows : list (list field)) (i : Z) : result bool :=
  a ← py_index rows i;
  b ← py_index rows (i + 1);
  mret (negb (row_eqb a b)).

Fixpoint filterM {A} (f : A → result bool) (l : list A) : result (list A) :=
  match l with
  | [] => Ok []
  | x :: l' =>
      b ← f x; r ← filterM f l';
      mret (if b : bool then x :: r else r)
  end.

(** The indices [i] of [range(num_lineups - 1)] that pass the condition
    of the comprehension. *)
Definition kept_indices (n : Z) (rows : list (list field)) : result (list Z) :=
  filterM (differs_from_next rows) (seqZ 0 (n - 1)).

(** [[lineups[i] for i in range(self.num_lineups - 1)
      if lineups[i] != lineups[i+1]]] *)
Definition dedup (n : Z) (rows : list (list field)) : result (list (list field)) :=
  kept ← kept_indices n rows;
  mapM (py_index rows) kept.

Definition header : list field :=
  FStr <$> ["C"; "C"; "W"; "W"; "W"; "D"; "D"; "G"; "UTIL"; "Salary"; "Projection"]%string.
Definition header_for_upload : list field :=
  FStr <$> ["C"; "C"; "W"; "W"; "W"; "D"; "D"; "G"; "UTIL"]%string.

(** [save_file]: the rows written to [lineups.csv] and to
    [lineups_for_upload.csv], header first. *)
Definition save_file : M (list (list field) * list (list field)) :=
  ls ← gets lineups;
  n ← gets num_lineups;
  rows ← liftR (dedup n (map (map to_field) ls));
  mret (header :: rows, header_for_upload :: map (py_take 9) rows).

(** ** Vocabulary for the statements *)

(** What an accepted lineup looks like: players that pass the test of
    [check_valid], followed by their total salary and projection. *)
Definition validated (l : list cell) : Prop :=
  ∃ ps, l = (Player <$> ps) ++ [Int (total_salary ps); Float (projection ps)] ∧
        within_rules ps.

(** [l[from : from + len]] *)
Definition slots {A} (from len : nat) (l : list A) : list A :=
  take len (drop from l).

(** A method that leaves some part [f] of the world as it found it. *)
Definition preserves {X A} (f : world → X) (m : M A) : Prop :=
  ∀ w a w', m w = Ok (a, w') → f w' = f w.

(** The score of [a] is not below that of [b]. *)
Definition not_below (a b : list cell) : Prop :=
  ∃ ka kb, score a = Ok ka ∧ score b = Ok kb ∧ key_lt ka kb = Ok false.

(** The world [w] with the lineups [ls] appended to the population. *)
Definition push (ls : list (list cell)) (w : world) : world :=
  with_self (set_lineups (lineups (self w) ++ ls) (self w)) w.

(** A key of the sort that is a float, as the score of every accepted
    lineup is. *)
Definition float_keyed (kx : cell * list cell) : Prop := ∃ x, kx.1 = Float x.

(** On two keyed lineups: the first key is not below the second. *)
Definition ge_key (a b : cell * list cell) : Prop := key_lt a.1 b.1 = Ok false.

(** Row [i] and row [i + 1] both exist and are not equal. *)
Definition differs (rows : list (list field)) (i : Z) : bool :=
  match rows !! Z.to_nat i, rows !! Z.to_nat (i + 1) with
  | Some a, Some b => negb (row_eqb a b)
  | _, _ => false
  end.

(** Row [i], for an index in range. *)
Definition row_at (rows : list (list field)) (i : Z) : list field :=
  default [] (rows !! Z.to_nat i).

(** The rows of the population as [save_file] sees them. *)
Definition table (g : GeneticNHL) : list (list field) :=
  map (map to_field) (lineups g).

(** The players of a roster that are kept: those whose average is not 0. *)
Definition active (ps : list player) : list player :=
  filter (λ p, float_nonzero (avePoints p) = true) ps.

(** The kept players whose role letter is [c], in the order of the file. *)
Definition bucket (c : ascii) (ps : list player) : list player :=
  filter (λ p, position p = c) (active ps).

(** The kept players whose role letter is not that of a goalie. *)
Definition non_goalies (ps : list player) : list player :=
  filter (λ p, position p ≠ "G"%char) (active ps).


(** ** Vocabulary for the further properties *)

(** The five role sequences all hold a player. *)
Definition stocked (g : GeneticNHL) : Prop :=
  centers g ≠ [] ∧ wingers g ≠ [] ∧ defencemen g ≠ [] ∧ goalies g ≠ [] ∧
  utils g ≠ [].

(** Every player of the five sequences. *)
Definition all_players (g : GeneticNHL) : list player :=
  centers g ++ wingers g ++ defencemen g ++ goalies g ++ utils g.

(** What [run] and its helpers never touch: everything but the
    population. *)
Definition config (g : GeneticNHL)
    : Z * Z * list player * list player * list player * list player * list player :=
  (num_lineups g, duration g, goalies g, centers g, wingers g, defencemen g, utils g).

(** The world [n] random values later. *)
Definition advance (n : nat) (w : world) : world :=
  {| self := self w; rand_pos := n + rand_pos w; clock_pos := clock_pos w |}.

(** The element of [l] that the [i]-th random value selects. *)
Definition draw {A} (l : list A) (i : nat) : option A :=
  l !! Z.to_nat (rand i `mod` Z.of_nat (length l)).

(** The nine players that random values [i .. i + 8] select, slot by
    slot. *)
Definition candidate (g : GeneticNHL) (i : nat) : option (list player) :=
  c1 ← draw (centers g) i; c2 ← draw (centers g) (1 + i);
  w1 ← draw (wingers g) (2 + i); w2 ← draw (wingers g) (3 + i);
  w3 ← draw (wingers g) (4 + i);
  d1 ← draw (defencemen g) (5 + i); d2 ← draw (defencemen g) (6 + i);
  gk ← draw (goalies g) (7 + i);
  u ← draw (utils g) (8 + i);
  Some [c1; c2; w1; w2; w3; d1; d2; gk; u].

(** Nine players, each from the sequence of its slot. *)
Definition drawn_from (g : GeneticNHL) (ps : list player) : Prop :=
  ∃ c1 c2 w1 w2 w3 d1 d2 gk u,
    ps = [c1; c2; w1; w2; w3; d1; d2; gk; u] ∧
    (c1 ∈ centers g ∧ c2 ∈ centers g) ∧
    (w1 ∈ wingers g ∧ w2 ∈ wingers g ∧ w3 ∈ wingers g) ∧
    (d1 ∈ defencemen g ∧ d2 ∈ defencemen g) ∧
    gk ∈ goalies g ∧ u ∈ utils g.

(** A lineup as the search builds them: nine players drawn slot by slot
    that pass the rules, then their salary and projection. *)
Definition lineup_of (g : GeneticNHL) (l : list cell) : Prop :=
  ∃ ps, drawn_from g ps ∧ within_rules ps ∧
        l = (Player <$> ps) ++ [Int (total_salary ps); Float (projection ps)].

(** A cell that is a player of the sequence [r]. *)
Definition cell_in (r : list player) (c : cell) : Prop :=
  ∃ p, c = Player p ∧ p ∈ r.

(** The population of [w] is made of lineups drawn from the sequences of
    [g], which are also those of [w]. *)
Definition sane (g : GeneticNHL) (w : world) : Prop :=
  config (self w) = config g ∧ Forall (lineup_of g) (lineups (self w)).

(** From a world that satisfies [I], the method [m] either returns a
    value and a world that satisfy [Q], or raises an error of [E]. *)
Definition ensures {A} (I : world → Prop) (E : error → Prop) (m : M A)
    (Q : A → world → Prop) : Prop :=
  ∀ w, I w → match m w with Ok (a, w') => Q a w' | Err e => E e end.

(** The sequences hold what their names say. *)
Definition sorted_pools (g : GeneticNHL) : Prop :=
  Forall (λ p, position p = "G"%char) (goalies g) ∧
  Forall (λ p, position p = "C"%char) (centers g) ∧
  Forall (λ p, position p = "W"%char) (wingers g) ∧
  Forall (λ p, position p = "D"%char) (defencemen g) ∧
  Forall (λ p, position p ≠ "G"%char) (utils g) ∧
  Forall (λ p, float_nonzero (avePoints p) = true) (all_players g).

(** The role letters of the first eight slots of a lineup. *)
Definition slot_letters : list ascii := ["C"; "C"; "W"; "W"; "W"; "D"; "D"; "G"]%char.

(** An accepted lineup whose slots hold, in order, two centers, three
    wingers, two defencemen and a goalie, then a player that is not a
    goalie. *)
Definition positioned (l : list cell) : Prop :=
  ∃ ps u,
    l = (Player <$> ps ++ [u]) ++
        [Int (total_salary (ps ++ [u])); Float (projection (ps ++ [u]))] ∧
    position <$> ps = slot_letters ∧ position u ≠ "G"%char.


End Model.

Arguments player float : clear implicits.
Arguments cell float : clear implicits.
Arguments GeneticNHL float : clear implicits.
Arguments world float : clear implicits.
Arguments pools float : clear implicits.
Arguments field float : clear implicits.
Arguments M float A : clear implicits.

(** ** A concrete roster

    A small [DKSalaries.csv], a random source and a clock, on which the
    embedded methods can be run. *)
Module Example.
#[export] Existing Instance Decimal.builtins.
#[local] Open Scope string_scope.

(** A row of the file: the columns read by [load_roster] are 11, 14,
    15, 17 and 18. *)
Definition csv_row (nm descr sal team ave : string) : list string :=
  replicate 11 "" ++ [nm; ""; ""; descr; sal; ""; team; ave].

Definition roster : list (list string) :=
  replicate 8 ["instructions"] ++
  [ csv_row "Adams" "C/UTIL" "5200" "BOS" "12.5";
    csv_row "Brown" "C/UTIL" "4800" "NYR" "11.25";
    csv_row "Clark" "C/UTIL" "4100" "TOR" "9.75";
    csv_row "Davis" "W/UTIL" "5600" "BOS" "13.1";
    csv_row "Evans" "W/UTIL" "4700" "MTL" "10.4";
    csv_row "Frank" "W/UTIL" "3900" "NYR" "8.05";
    csv_row "Ghosh" "W/UTIL" "3500" "TOR" "7.3";
    csv_row "Hills" "D/UTIL" "4400" "MTL" "6.9";
    csv_row "Irwin" "D/UTIL" "3800" "BOS" "5.55";
    csv_row "Jones" "D/UTIL" "3200" "NYR" "4.2";
    csv_row "Klein" "G" "7900" "TOR" "15.6";
    csv_row "Lopez" "G" "7400" "MTL" "14.85";
    csv_row "Moore" "C/UTIL" "2500" "BOS" "0";
    csv_row "Olsen" "C/UTIL" "3600" "MTL" "8.8";
    csv_row "Price" "W/UTIL" "4300" "BOS" "9.15";
    csv_row "Quinn" "D/UTIL" "4000" "TOR" "6.05";
    csv_row "Nolan" "LW/UTIL" "3000" "NYR" "6.5";
    csv_row "Reyes" "C/UTIL" "4500" "NYR" "10.1";
    csv_row "Stone" "C/UTIL" "3900" "TOR" "9.2";
    csv_row "Tovar" "W/UTIL" "4100" "MTL" "8.6";
    csv_row "Unger" "W/UTIL" "3700" "TOR" "7.75";
    csv_row "Vance" "W/UTIL" "3300" "NYR" "6.95";
    csv_row "Walsh" "D/UTIL" "3600" "MTL" "5.8";
    csv_row "Young" "D/UTIL" "3400" "BOS" "5.15";
    csv_row "Zhang" "G" "7100" "NYR" "14.2" ].


(** A mixing function standing for the generator behind [random]. *)
Definition noise (i : nat) : Z :=
  let z := Z.land ((Z.of_nat i + 1) * 0x9E3779B1) 0xFFFFFFFF in
  let z := Z.land (Z.lxor z (z ≫ 15) * 0x85EBCA77) 0xFFFFFFFF in
  let z := Z.land (Z.lxor z (z ≫ 13) * 0xC2B2AE3D) 0xFFFFFFFF in
  Z.lxor z (z ≫ 16).

(** The clock advances by one tick at each reading. *)
#[export] Instance env : Environment :=
  {| rand := noise; clock := Z.of_nat |}.

(** A fresh object [GeneticNHL(n, d)]. *)
Definition fresh (n d : Z) : world Q :=
  {| self := init n d; rand_pos := 0; clock_pos := 0 |}.

Definition mk (nm : string) (pos : ascii) (sal : Z) (team : string) (ave : Q)
    : player Q :=
  {| name := nm; position := pos; salary := sal; teamAbbrev := team;
     avePoints := ave |}.

Definition adams := mk "Adams" "C" 5200 "BOS" (25 # 2).
Definition brown := mk "Brown" "C" 4800 "NYR" (45 # 4).
Definition clark := mk "Clark" "C" 4100 "TOR" (39 # 4).
Definition davis := mk "Davis" "W" 5600 "BOS" (131 # 10).
Definition evans := mk "Evans" "W" 4700 "MTL" (52 # 5).
Definition frank := mk "Frank" "W" 3900 "NYR" (161 # 20).
Definition hills := mk "Hills" "D" 4400 "MTL" (69 # 10).
Definition irwin := mk "Irwin" "D" 3800 "BOS" (111 # 20).
Definition klein := mk "Klein" "G" 7900 "TOR" (78 # 5).

Definition zhang := mk "Zhang" "G" 7100 "NYR" (71 # 5).

(** An object whose players all come from two teams. *)
Definition narrow : world Q :=
  {| self := {| num_lineups := 5; duration := 3; goalies := [zhang];
                centers := [adams; brown]; wingers := [davis; frank];
                defencemen := [irwin];
                utils := [adams; brown; davis; frank; irwin]; lineups := [] |};
     rand_pos := 0; clock_pos := 0 |}.

(** The world a method leaves, and the value it returns. *)
Definition outcome {A} (m : M Q A) (w : world Q) : world Q :=
  match m w with Ok (_, w') => w' | Err _ => w end.
Definition value {A} (d : A) (m : M Q A) (w : world Q) : A :=
  match m w with Ok (a, _) => a | Err _ => d end.

(** [GeneticNHL(n, d)] after [load_roster()]. *)
Definition loaded (n d : Z) : world Q := outcome (load_roster roster) (fresh n d).

(** The recursion limit of the interpreter, and a bound on the rounds. *)
Definition limit : nat := 1000.
Definition rounds : nat := 10.

(** Nine distinct players of four teams, 44400 in all. *)
Definition sound : list (cell Q) :=
  Player <$> [adams; brown; davis; evans; frank; hills; irwin; klein; clark].

(** The same nine with the two centers exchanged. *)
Definition swapped : list (cell Q) :=
  Player <$> [brown; adams; davis; evans; frank; hills; irwin; klein; clark].

(** A population in which the first and third lineups are equal. *)
Definition echoing : world Q :=
  let a := (sound ++ [Int 44400; Float (931 # 10)])%list in
  let b := (swapped ++ [Int 44400; Float (931 # 10)])%list in
  {| self := set_lineups [a; b; a; b] (init 4 60); rand_pos := 0; clock_pos := 0 |}.

(** The same with [adams] twice: eight distinct players. *)
Definition doubled : list (cell Q) :=
  Player <$> [adams; brown; davis; evans; frank; hills; irwin; klein; adams].
End Example.

(** * Properties *)

Section Properties.
Context {float : Type} `{B : Builtins float} `{Env : Environment}.

(** ** Running the monad *)

Lemma bind_Ok {A C} (m : M float A) (f : A → M float C) w r :
  (m ≫= f) w = Ok r ↔ ∃ a w1, m w = Ok (a, w1) ∧ f a w1 = Ok r.
Proof.
  unfold mbind, M_bind. split.
  - destruct (m w) as [[a w1]|e]; [eauto | discriminate].
  - intros (a & w1 & -> & H). exact H.
Qed.

Lemma ret_Ok {A} (a : A) w r : (mret a : M float A) w = Ok r ↔ r = (a, w).
Proof. unfold mret, M_ret. split; [intros [= <-] | intros ->]; reflexivity. Qed.

Lemma liftR_Ok {A} (x : result A) (w : world float) r :
  liftR x w = Ok r ↔ ∃ a, x = Ok a ∧ r = (a, w).
Proof.
  unfold liftR. destruct x as [a|e]; split.
  - intros [= <-]. eauto.
  - intros (? & [= <-] & ->). reflexivity.
  - discriminate.
  - intros (? & [=] & _).
Qed.

Lemma gets_Ok {A} (f : GeneticNHL float → A) w r :
  gets f w = Ok r ↔ r = (f (self w), w).
Proof. unfold gets. split; [intros [= <-] | intros ->]; reflexivity. Qed.

Lemma modify_Ok f (w : world float) r :
  modify f w = Ok r ↔ r = (tt, with_self (f (self w)) w).
Proof. unfold modify. split; [intros [= <-] | intros ->]; reflexivity. Qed.

Lemma rbind_Ok {A C} (x : result A) (f : A → result C) c :
  x ≫= f = Ok c ↔ ∃ a, x = Ok a ∧ f a = Ok c.
Proof.
  unfold mbind, result_bind. destruct x as [a|e]; split.
  - eauto.
  - intros (? & [= <-] & H). exact H.
  - discriminate.
  - intros (? & [=] & _).
Qed.

(** ** Python list operations *)

Lemma py_index_Ok {A} (l : list A) i a :
  py_index l i = Ok a →
  l !! Z.to_nat (if decide (i < 0) then i + Z.of_nat (length l) else i) = Some a.
Proof.
  unfold py_index. cbv zeta. case_decide; [| discriminate].
  destruct (l !! _); [intros [= <-]; reflexivity | discriminate].
Qed.

Lemma py_index_nonneg {A} (l : list A) (i : nat) :
  py_index l (Z.of_nat i) =
    match l !! i with Some a => Ok a | None => Err IndexError end.
Proof.
  unfold py_index. cbv zeta.
  rewrite (decide_False (P := Z.of_nat i < 0)) by lia.
  rewrite Nat2Z.id. case_decide as H.
  - reflexivity.
  - rewrite (lookup_ge_None_2 l i) by lia. reflexivity.
Qed.

Lemma py_index_last {A} (l : list A) a : py_index (l ++ [a]) (-1) = Ok a.
Proof.
  unfold py_index. cbv zeta.
  rewrite (decide_True (P := -1 < 0)) by lia.
  rewrite length_app. cbn [length].
  rewrite decide_True by lia.
  replace (Z.to_nat (-1 + Z.of_nat (length l + 1))) with (length l + 0)%nat by lia.
  by rewrite lookup_app_r, Nat.add_comm, Nat.add_sub by lia.
Qed.

Lemma py_index_lookup {A} (l : list A) i a :
  py_index l i = Ok a → 0 ≤ i → l !! Z.to_nat i = Some a.
Proof. intros H%py_index_Ok Hi. by rewrite decide_False in H by lia. Qed.

Lemma py_index_elem_of {A} (l : list A) i a : py_index l i = Ok a → a ∈ l.
Proof. intros H%py_index_Ok. by eapply list_elem_of_lookup_2. Qed.

Lemma py_take_length {A} (n : Z) (l : list A) :
  0 ≤ n → Z.of_nat (length (py_take n l)) = Z.min n (Z.of_nat (length l)).
Proof.
  intros Hn. unfold py_take. rewrite decide_True by done.
  rewrite length_take. lia.
Qed.

Lemma py_take_subseteq {A} (n : Z) (l : list A) : py_take n l ⊆ l.
Proof.
  unfold py_take. case_decide; apply subseteq_take.
Qed.

(** ** [check_valid] *)

Lemma distinct_size (l : list string) :
  distinct l = size (list_to_set l : gset string).
Proof.
  unfold distinct.
  rewrite <- (size_list_to_set (C:=gset string) (remove_dups l))
    by apply NoDup_remove_dups.
  f_equal. apply set_eq. intros x.
  by rewrite !elem_of_list_to_set, elem_of_remove_dups.
Qed.

Lemma mapM_as_player_fmap (ps : list (player float)) :
  mapM as_player (Player <$> ps) = Ok ps.
Proof.
  induction ps as [|p ps IH]; [reflexivity|].
  cbn. rewrite IH. reflexivity.
Qed.

Lemma mapM_as_player_Ok (l : list (cell float)) ps :
  mapM as_player l = Ok ps → l = Player <$> ps.
Proof.
  revert ps. induction l as [|c l IH]; intros ps; cbn.
  - intros [= <-]. reflexivity.
  - destruct c as [p| |]; cbn; try discriminate.
    destruct (mapM as_player l) as [qs|] eqn:E; cbn; [|discriminate].
    intros [= <-]. cbn. f_equal. by apply IH.
Qed.

Lemma check_valid_players (ps : list (player float)) w :
  check_valid (Player <$> ps) w =
    Ok (if decide (within_rules ps)
        then (true, (Player <$> ps) ++ [Int (total_salary ps); Float (projection ps)])
        else (false, Player <$> ps), w).
Proof.
  unfold check_valid, mbind, M_bind, liftR.
  rewrite mapM_as_player_fmap. by case_decide.
Qed.

Lemma check_valid_Ok lineup (w : world float) r w' :
  check_valid lineup w = Ok (r, w') →
  ∃ ps, lineup = Player <$> ps ∧ w' = w ∧
    r = if decide (within_rules ps)
        then (true, lineup ++ [Int (total_salary ps); Float (projection ps)])
        else (false, lineup).
Proof.
  unfold check_valid. intros H.
  apply bind_Ok in H as (ps & w1 & H1 & H2).
  apply liftR_Ok in H1 as (? & Hps & [= <- <-]).
  exists ps. split; [by apply mapM_as_player_Ok|].
  case_decide; apply ret_Ok in H2 as [= <- <-]; done.
Qed.

Lemma check_valid_number lineup (w : world float) :
  (∃ c, c ∈ lineup ∧ ∀ p, c ≠ Player p) → check_valid lineup w = Err TypeError.
Proof.
  intros (c & Hc & Hnp). unfold check_valid, mbind, M_bind, liftR.
  assert (mapM as_player lineup = Err TypeError) as ->; [|done].
  induction Hc as [c l|c d l Hc IH].
  - destruct c; [by destruct (Hnp p) | done | done].
  - cbn. destruct d; cbn; [|done..]. by rewrite IH.
Qed.

(** ** What a method leaves alone *)

Lemma preserves_bind {X A C} (f : world float → X) (m : M float A) (k : A → M float C) :
  preserves f m → (∀ a, preserves f (k a)) → preserves f (m ≫= k).
Proof.
  intros Hm Hk w c w' (a & w1 & H1 & H2)%bind_Ok.
  rewrite (Hk _ _ _ _ H2). eauto.
Qed.

Lemma preserves_ret {X A} (f : world float → X) (a : A) : preserves f (mret a : M float A).
Proof. intros w b w' H%ret_Ok. by simplify_eq. Qed.

Lemma preserves_liftR {X A} (f : world float → X) (r : result A) : preserves f (liftR r).
Proof. intros w b w' (? & _ & H)%liftR_Ok. by simplify_eq. Qed.

Lemma preserves_gets {X A} (f : world float → X) (g : GeneticNHL float → A) :
  preserves f (gets g).
Proof. intros w b w' H%gets_Ok. by simplify_eq. Qed.

Lemma preserves_throw {X A} (f : world float → X) e : preserves f (throw e : M float A).
Proof. intros w b w' [=]. Qed.

Lemma randint_Ok lo hi (w : world float) i w' :
  randint lo hi w = Ok (i, w') →
  lo ≤ i ≤ hi ∧ self w' = self w ∧ clock_pos w' = clock_pos w.
Proof.
  unfold randint. case_decide; [discriminate|]. intros [= <- <-].
  split; [|done].
  pose proof (Z.mod_pos_bound (rand (rand_pos w)) (hi - lo + 1) ltac:(lia)).
  lia.
Qed.

Lemma preserves_randint_self lo hi : preserves (self (float:=float)) (randint lo hi).
Proof. intros w i w' H%randint_Ok. tauto. Qed.

Lemma preserves_randint_clock lo hi : preserves (clock_pos (float:=float)) (randint lo hi).
Proof. intros w i w' H%randint_Ok. tauto. Qed.

Lemma preserves_modify_clock g : preserves (clock_pos (float:=float)) (modify g).
Proof. intros w i w' H%modify_Ok. by simplify_eq. Qed.

(** Break a goal [preserves f m] down along the structure of [m]. *)
Ltac frame :=
  repeat first
    [ assumption
    | apply preserves_ret | apply preserves_liftR | apply preserves_gets
    | apply preserves_throw
    | apply preserves_randint_self | apply preserves_randint_clock
    | apply preserves_modify_clock
    | apply preserves_bind; [|intros ?]
    | match goal with
      | |- preserves _ (let '(_, _) := ?x in _) => destruct x
      | |- preserves _ (if ?b then _ else _) => destruct b
      | |- preserves _ (match ?x with _ => _ end) => destruct x
      end ].

Lemma preserves_check_valid {X} (f : world float → X) lineup :
  preserves f (check_valid lineup).
Proof. intros w r w' (ps & _ & -> & _)%check_valid_Ok. reflexivity. Qed.

Lemma preserves_pick_self role : preserves (self (float:=float)) (pick role).
Proof. unfold pick, random_item. frame. Qed.

Lemma preserves_pick_clock role : preserves (clock_pos (float:=float)) (pick role).
Proof. unfold pick, random_item. frame. Qed.

Lemma preserves_generate_self depth :
  preserves (self (float:=float)) (generate_lineup depth).
Proof.
  induction depth as [|d IH]; cbn [generate_lineup]; [apply preserves_throw|].
  repeat (apply preserves_bind; [apply preserves_pick_self|intros ?]).
  apply preserves_bind; [apply preserves_check_valid|intros [[] ?]]; frame.
Qed.

Lemma preserves_generate_clock depth :
  preserves (clock_pos (float:=float)) (generate_lineup depth).
Proof.
  induction depth as [|d IH]; cbn [generate_lineup]; [apply preserves_throw|].
  repeat (apply preserves_bind; [apply preserves_pick_clock|intros ?]).
  apply preserves_bind; [apply preserves_check_valid|intros [[] ?]]; frame.
Qed.

Lemma preserves_grab_self pool n :
  preserves (self (float:=float)) (grab_players pool n).
Proof.
  revert pool. induction n as [|n IH]; intros pool; cbn [grab_players]; frame.
  apply IH.
Qed.

Lemma preserves_grab_clock pool n :
  preserves (clock_pos (float:=float)) (grab_players pool n).
Proof.
  revert pool. induction n as [|n IH]; intros pool; cbn [grab_players]; frame.
  apply IH.
Qed.

Lemma preserves_mate_attempt_self l1 l2 :
  preserves (self (float:=float)) (mate_attempt l1 l2).
Proof.
  unfold mate_attempt, mate_pools, mate_select.
  repeat first [ apply preserves_pick_self | apply preserves_grab_self
               | apply preserves_check_valid | progress frame ].
Qed.

Lemma preserves_mate_attempt_clock l1 l2 :
  preserves (clock_pos (float:=float)) (mate_attempt l1 l2).
Proof.
  unfold mate_attempt, mate_pools, mate_select.
  repeat first [ apply preserves_pick_clock | apply preserves_grab_clock
               | apply preserves_check_valid | progress frame ].
Qed.

Lemma preserves_mate_self depth l1 l2 :
  preserves (self (float:=float)) (mate_lineups depth l1 l2).
Proof.
  induction depth as [|d IH]; cbn [mate_lineups]; [apply preserves_throw|].
  apply preserves_bind; [apply preserves_mate_attempt_self|].
  intros [? [[] ?]]; frame.
Qed.

Lemma preserves_mate_clock depth l1 l2 :
  preserves (clock_pos (float:=float)) (mate_lineups depth l1 l2).
Proof.
  induction depth as [|d IH]; cbn [mate_lineups]; [apply preserves_throw|].
  apply preserves_bind; [apply preserves_mate_attempt_clock|].
  intros [? [[] ?]]; frame.
Qed.

(** ** Only accepted lineups come out *)

Lemma check_valid_true lineup (w : world float) out w' :
  check_valid lineup w = Ok ((true, out), w') → validated out.
Proof.
  intros (ps & -> & -> & Hr)%check_valid_Ok.
  case_decide; simplify_eq. by exists ps.
Qed.

Lemma generate_lineup_validated depth (w : world float) l w' :
  generate_lineup depth w = Ok (l, w') → validated l.
Proof.
  revert w. induction depth as [|d IH]; intros w; cbn [generate_lineup];
    [discriminate|].
  intros H.
  do 9 (apply bind_Ok in H as (? & ? & _ & H)).
  apply bind_Ok in H as ([[] out] & w1 & Hcv & H).
  - apply ret_Ok in H as [= <- <-]. by eapply check_valid_true.
  - by eapply IH.
Qed.

Lemma mate_lineups_validated depth l1 l2 (w : world float) l w' :
  mate_lineups depth l1 l2 w = Ok (l, w') → validated l.
Proof.
  revert w. induction depth as [|d IH]; intros w; cbn [mate_lineups];
    [discriminate|].
  intros ([ps [[] out]] & w1 & Ha & H)%bind_Ok.
  - apply ret_Ok in H as [= <- <-]. unfold mate_attempt in Ha.
    apply bind_Ok in Ha as (? & ? & _ & Ha).
    apply bind_Ok in Ha as (? & ? & _ & Ha).
    apply bind_Ok in Ha as (? & ? & Hcv & [= <- <- <-]%ret_Ok).
    by eapply check_valid_true.
  - by eapply IH.
Qed.

(** ** Sorting by score *)

Lemma insert_desc_perm (x : cell float * list (cell float)) l r :
  insert_desc x l = Ok r → r ≡ₚ x :: l.
Proof.
  revert r. induction l as [|y l IH]; intros r; cbn [insert_desc].
  - by intros [= <-].
  - intros ([] & _ & H)%rbind_Ok.
    + apply rbind_Ok in H as (r' & Hr' & [= <-]).
      rewrite (IH _ Hr'). apply Permutation_swap.
    + by simplify_eq.
Qed.

Lemma sort_desc_perm (l : list (cell float * list (cell float))) s :
  sort_desc l = Ok s → s ≡ₚ l.
Proof.
  revert s. induction l as [|x l IH]; intros s; cbn [sort_desc].
  - by intros [= <-].
  - intros (s' & Hs' & H%insert_desc_perm)%rbind_Ok.
    by rewrite H, (IH _ Hs').
Qed.

Lemma mapM_with_key_Ok (ls : list (list (cell float))) keyed :
  mapM with_key ls = Ok keyed →
  keyed.*2 = ls ∧ Forall (λ kx, score kx.2 = Ok kx.1) keyed.
Proof.
  revert keyed. induction ls as [|x ls IH]; intros keyed; cbn [mapM].
  - by intros [= <-].
  - intros (kx & Hkx & (ks & Hks & [= <-])%rbind_Ok)%rbind_Ok.
    apply rbind_Ok in Hkx as (k & Hk & [= <-]).
    destruct (IH _ Hks) as [<- HF]. split; [done|]. by constructor.
Qed.

Lemma sort_by_score_perm (ls sorted : list (list (cell float))) :
  sort_by_score ls = Ok sorted → sorted ≡ₚ ls.
Proof.
  unfold sort_by_score.
  intros (keyed & [<- _]%mapM_with_key_Ok & (s & Hs%sort_desc_perm & [= <-])%rbind_Ok)%rbind_Ok.
  by rewrite Hs.
Qed.

Lemma sort_by_score_length (ls sorted : list (list (cell float))) :
  sort_by_score ls = Ok sorted → length sorted = length ls.
Proof. intros H%sort_by_score_perm. by rewrite H. Qed.


Lemma insert_desc_hd y x l r :
  insert_desc x l = Ok r → HdRel ge_key y l → ge_key y x → HdRel ge_key y r.
Proof.
  destruct l as [|z l]; cbn [insert_desc].
  - intros [= <-] _ ?. by constructor.
  - intros ([] & _ & H)%rbind_Ok Hyz Hyx.
    + apply rbind_Ok in H as (r' & _ & [= <-]).
      constructor. by inversion Hyz.
    + simplify_eq. by constructor.
Qed.

Lemma insert_desc_sorted x l r :
  float_keyed x → Forall float_keyed l → Sorted ge_key l →
  insert_desc x l = Ok r → Sorted ge_key r.
Proof.
  intros [fx Hx]. revert r.
  induction l as [|y l IH]; intros r HF Hs; cbn [insert_desc].
  - intros [= <-]. by repeat constructor.
  - apply Forall_cons in HF as [[fy Hy] HF]. apply Sorted_inv in Hs as [Hs Hhd].
    intros (b & Hb & H)%rbind_Ok. rewrite Hx, Hy in Hb. injection Hb as <-.
    destruct (float_ltb fx fy) eqn:Hlt.
    + apply rbind_Ok in H as (r' & Hr' & [= <-]).
      constructor; [by apply IH|].
      eapply insert_desc_hd; [done..|].
      unfold ge_key. rewrite Hx, Hy. cbn. by rewrite float_ltb_asym.
    + simplify_eq. constructor; [by constructor|].
      constructor. unfold ge_key. rewrite Hx, Hy. cbn. by rewrite Hlt.
Qed.

Lemma sort_desc_sorted l s :
  Forall float_keyed l → sort_desc l = Ok s → Sorted ge_key s.
Proof.
  revert s. induction l as [|x l IH]; intros s HF; cbn [sort_desc].
  - intros [= <-]. constructor.
  - apply Forall_cons in HF as [Hx HF].
    intros (s' & Hs' & H)%rbind_Ok.
    eapply insert_desc_sorted; [done| |by apply IH|done].
    by rewrite (sort_desc_perm _ _ Hs').
Qed.

Lemma Sorted_snd_not_below (s : list (cell float * list (cell float))) :
  Forall (λ kx, score kx.2 = Ok kx.1) s → Sorted ge_key s →
  Sorted not_below (s.*2).
Proof.
  intros HF Hs. induction Hs as [|a s Hs IH Hhd]; cbn; [constructor|].
  apply Forall_cons in HF as [Ha HF]. constructor; [by apply IH|].
  destruct Hhd as [|b s Hab]; cbn; constructor.
  apply Forall_cons in HF as [Hb _]. by exists a.1, b.1.
Qed.

Lemma validated_score (l : list (cell float)) :
  validated l → ∃ x, score l = Ok (Float x).
Proof.
  intros (ps & -> & _). exists (projection ps).
  unfold score. rewrite (cons_middle (Int _)), app_assoc. apply py_index_last.
Qed.

Lemma sort_by_score_sorted (ls sorted : list (list (cell float))) :
  Forall validated ls → sort_by_score ls = Ok sorted → Sorted not_below sorted.
Proof.
  unfold sort_by_score.
  intros HF (keyed & [<- Hk]%mapM_with_key_Ok & (s & Hs & [= <-])%rbind_Ok)%rbind_Ok.
  apply Sorted_snd_not_below.
  - by rewrite (sort_desc_perm _ _ Hs).
  - eapply sort_desc_sorted; [|done].
    apply Forall_forall. intros kx Hin.
    rewrite Forall_forall in HF. rewrite Forall_forall in Hk.
    destruct (validated_score kx.2) as [x Hx].
    { apply HF. by apply list_elem_of_fmap_2. }
    exists x. specialize (Hk _ Hin). congruence.
Qed.

(** ** One round *)

Lemma push_push (l1 l2 : list (list (cell float))) w :
  push l2 (push l1 w) = push (l1 ++ l2) w.
Proof. unfold push, with_self, set_lineups. cbn. by rewrite app_assoc. Qed.

Lemma self_push (ls : list (list (cell float))) w :
  self (push ls w) = set_lineups (lineups (self w) ++ ls) (self w).
Proof. reflexivity. Qed.

Lemma append_lineup_Ok l (w : world float) r :
  append_lineup l w = Ok r ↔ r = (tt, push [l] w).
Proof. unfold append_lineup. apply modify_Ok. Qed.

Lemma replicateM_Ok {A} (P : A → Prop) (m : M float A) n w xs w' :
  (∀ w a w', m w = Ok (a, w') → P a) →
  replicateM n m w = Ok (xs, w') → length xs = n ∧ Forall P xs.
Proof.
  intros HP. revert w xs. induction n as [|n IH]; intros w xs; cbn [replicateM].
  - intros H%ret_Ok. simplify_eq. by split.
  - intros (x & w1 & Hx & (ys & w2 & Hys & H%ret_Ok)%bind_Ok)%bind_Ok.
    simplify_eq. destruct (IH _ _ Hys) as [<- HF]. split; [done|].
    constructor; [by eapply HP | done].
Qed.

Lemma preserves_replicateM {X A} (f : world float → X) (m : M float A) n :
  preserves f m → preserves f (replicateM n m).
Proof. intros Hm. induction n as [|n IH]; cbn [replicateM]; frame. Qed.

(** The statements of [get_lineups], one after the other. *)
Lemma get_lineups_Ok depth (w w' : world float) :
  get_lineups depth w = Ok (tt, w') →
  ∃ batch b1 b2 b3 rest m12 m13 m23 f1 f2 f3 f4 w1 w2 w3 w4 w5 w6 w7 w8,
    replicateM 10 (generate_lineup depth) w = Ok (batch, w1) ∧
    sort_by_score batch = Ok (b1 :: b2 :: b3 :: rest) ∧
    mate_lineups depth b1 b2 (push [b1; b2; b3] w1) = Ok (m12, w2) ∧
    mate_lineups depth b1 b3 (push [m12] w2) = Ok (m13, w3) ∧
    mate_lineups depth b2 b3 (push [m13] w3) = Ok (m23, w4) ∧
    generate_lineup depth (push [m23] w4) = Ok (f1, w5) ∧
    generate_lineup depth (push [f1] w5) = Ok (f2, w6) ∧
    generate_lineup depth (push [f2] w6) = Ok (f3, w7) ∧
    generate_lineup depth (push [f3] w7) = Ok (f4, w8) ∧
    w' = push [f4] w8.
Proof.
  unfold get_lineups. intros H.
  apply bind_Ok in H as (batch & w1 & Hbatch & H).
  apply bind_Ok in H as (? & ? & (sorted & Hsort & [= -> ->])%liftR_Ok & H).
  repeat match type of H with
  | (liftR _ ≫= _) _ = Ok _ =>
      let Hi := fresh "Hi" in
      apply bind_Ok in H as (? & ? & (? & Hi & [= -> ->])%liftR_Ok & H)
  | (append_lineup _ ≫= _) _ = Ok _ =>
      apply bind_Ok in H as (? & ? & [= -> ->]%append_lineup_Ok & H)
  | (mate_lineups _ _ _ ≫= _) _ = Ok _ =>
      let Hm := fresh "Hm" in
      apply bind_Ok in H as (? & ? & Hm & H)
  | (generate_lineup _ ≫= _) _ = Ok _ =>
      let Hg := fresh "Hg" in
      apply bind_Ok in H as (? & ? & Hg & H)
  end.
  apply append_lineup_Ok in H as [= ->].
  repeat match goal with
  | Hi : py_index _ _ = Ok _ |- _ => apply py_index_lookup in Hi; [|lia]; cbn in Hi
  end.
  destruct sorted as [|b1 [|b2 [|b3 rest]]]; simplify_eq/=.
  rewrite !push_push in Hm.
  do 20 eexists. repeat split; eassumption || reflexivity.
Qed.


(** [w1] is [w] with [ls] appended to its population. *)
Lemma appended_nil (w w1 : world float) :
  self w1 = self w → self w1 = set_lineups (lineups (self w) ++ []) (self w).
Proof. intros ->. rewrite app_nil_r. by destruct (self w). Qed.

Lemma appended_push (w : world float) ls l w1 :
  self w1 = set_lineups (lineups (self w) ++ ls) (self w) →
  self (push l w1) = set_lineups (lineups (self w) ++ ls ++ l) (self w).
Proof. intros H. rewrite self_push, H. cbn. by rewrite app_assoc. Qed.

Lemma appended_later (w : world float) ls w1 w2 :
  self w1 = set_lineups (lineups (self w) ++ ls) (self w) →
  self w2 = self w1 →
  self w2 = set_lineups (lineups (self w) ++ ls) (self w).
Proof. congruence. Qed.

(** What a round does to the object: the ten lineups are appended to the
    population, nothing else changes, and the clock is not read. *)
Lemma get_lineups_self depth (w w1 w2 w3 w4 w5 w6 w7 w8 : world float)
    batch b1 b2 b3 m12 m13 m23 f1 f2 f3 f4 :
  replicateM 10 (generate_lineup depth) w = Ok (batch, w1) →
  mate_lineups depth b1 b2 (push [b1; b2; b3] w1) = Ok (m12, w2) →
  mate_lineups depth b1 b3 (push [m12] w2) = Ok (m13, w3) →
  mate_lineups depth b2 b3 (push [m13] w3) = Ok (m23, w4) →
  generate_lineup depth (push [m23] w4) = Ok (f1, w5) →
  generate_lineup depth (push [f1] w5) = Ok (f2, w6) →
  generate_lineup depth (push [f2] w6) = Ok (f3, w7) →
  generate_lineup depth (push [f3] w7) = Ok (f4, w8) →
  self (push [f4] w8) =
    set_lineups (lineups (self w) ++ [b1; b2; b3; m12; m13; m23; f1; f2; f3; f4])
                (self w) ∧
  clock_pos (push [f4] w8) = clock_pos w.
Proof.
  intros Hb H12 H13 H23 H1 H2 H3 H4. split.
  - apply (appended_push _ [_; _; _; _; _; _; _; _; _]).
    eapply appended_later; [|by eapply preserves_generate_self].
    apply (appended_push _ [_; _; _; _; _; _; _; _]).
    eapply appended_later; [|by eapply preserves_generate_self].
    apply (appended_push _ [_; _; _; _; _; _; _]).
    eapply appended_later; [|by eapply preserves_generate_self].
    apply (appended_push _ [_; _; _; _; _; _]).
    eapply appended_later; [|by eapply preserves_generate_self].
    apply (appended_push _ [_; _; _; _; _]).
    eapply appended_later; [|by eapply preserves_mate_self].
    apply (appended_push _ [_; _; _; _]).
    eapply appended_later; [|by eapply preserves_mate_self].
    apply (appended_push _ [_; _; _]).
    eapply appended_later; [|by eapply preserves_mate_self].
    apply (appended_push _ []).
    apply appended_nil.
    exact (preserves_replicateM self _ _ (preserves_generate_self depth) _ _ _ Hb).
  - change (clock_pos (push [f4] w8)) with (clock_pos w8).
    rewrite (preserves_generate_clock _ _ _ _ H4); cbn.
    rewrite (preserves_generate_clock _ _ _ _ H3); cbn.
    rewrite (preserves_generate_clock _ _ _ _ H2); cbn.
    rewrite (preserves_generate_clock _ _ _ _ H1); cbn.
    rewrite (preserves_mate_clock _ _ _ _ _ _ H23); cbn.
    rewrite (preserves_mate_clock _ _ _ _ _ _ H13); cbn.
    rewrite (preserves_mate_clock _ _ _ _ _ _ H12); cbn.
    exact (preserves_replicateM clock_pos _ _ (preserves_generate_clock depth) _ _ _ Hb).
Qed.

Lemma get_lineups_effect depth (w w' : world float) :
  get_lineups depth w = Ok (tt, w') →
  ∃ added, length added = 10%nat ∧ Forall validated added ∧
    self w' = set_lineups (lineups (self w) ++ added) (self w) ∧
    clock_pos w' = clock_pos w.
Proof.
  intros (batch & b1 & b2 & b3 & rest & m12 & m13 & m23 & f1 & f2 & f3 & f4 &
          w1 & w2 & w3 & w4 & w5 & w6 & w7 & w8 &
          Hb & Hs & H12 & H13 & H23 & H1 & H2 & H3 & H4 & ->)%get_lineups_Ok.
  exists [b1; b2; b3; m12; m13; m23; f1; f2; f3; f4].
  split; [done|]. split; [|by eapply get_lineups_self].
  destruct (replicateM_Ok validated _ _ _ _ _ (generate_lineup_validated depth) Hb)
    as [_ HF].
  rewrite <- (sort_by_score_perm _ _ Hs) in HF.
  apply Forall_cons in HF as [? HF]. apply Forall_cons in HF as [? HF].
  apply Forall_cons in HF as [? _].
  repeat first [apply Forall_nil_2 | apply Forall_cons_2];
    first [ assumption | by eapply mate_lineups_validated
          | by eapply generate_lineup_validated ].
Qed.

(** ** The loop of [run] *)

Lemma round_body_Ok depth (w w' : world float) :
  round_body depth w = Ok (tt, w') →
  ∃ added sorted, length added = 10%nat ∧ Forall validated added ∧
    sort_by_score (lineups (self w) ++ added) = Ok sorted ∧
    self w' = set_lineups (py_take (num_lineups (self w)) sorted) (self w) ∧
    clock_pos w' = clock_pos w.
Proof.
  unfold round_body, sort_lineups, trim_lineups.
  intros ([] & w1 & (added & Hlen & Hval & Hself & Hclock)%get_lineups_effect & H)%bind_Ok.
  apply bind_Ok in H as ([] & w2 & H & Htrim%modify_Ok).
  apply bind_Ok in H as (ls & ? & [= -> ->]%gets_Ok & H).
  apply bind_Ok in H as (sorted & ? & (? & Hsort & [= -> ->])%liftR_Ok & Hmod%modify_Ok).
  simplify_eq. rewrite Hself in Hsort. cbn in Hsort.
  eexists added, _. repeat split; [done..|exact Hsort| |done].
  cbn. by rewrite Hself.
Qed.

Lemma round_body_validated depth (w w' : world float) :
  round_body depth w = Ok (tt, w') →
  Forall validated (lineups (self w)) → Forall validated (lineups (self w')).
Proof.
  intros (added & sorted & _ & Hadd & Hsort%sort_by_score_perm & -> & _)%round_body_Ok Hold.
  cbn. apply Forall_forall. intros l Hl%py_take_subseteq.
  rewrite Hsort in Hl. revert l Hl. apply Forall_forall, Forall_app. by split.
Qed.

Lemma round_body_length depth (w w' : world float) :
  round_body depth w = Ok (tt, w') → 0 ≤ num_lineups (self w) →
  Z.of_nat (length (lineups (self w'))) =
    Z.min (num_lineups (self w)) (Z.of_nat (length (lineups (self w))) + 10).
Proof.
  intros (added & sorted & Hlen & _ & Hsort%sort_by_score_length & -> & _)%round_body_Ok HN.
  cbn. rewrite py_take_length, Hsort, length_app by done. lia.
Qed.

Lemma run_loop_Ok fuel depth runtime (w w' : world float) :
  run_loop fuel depth runtime w = Ok (tt, w') →
  ∃ k : nat,
    clock_pos w' = (clock_pos w + k + 1)%nat ∧
    (∀ j, (j < k)%nat → clock (clock_pos w + j) < runtime) ∧
    ¬ clock (clock_pos w + k) < runtime ∧
    num_lineups (self w') = num_lineups (self w) ∧
    (Forall validated (lineups (self w)) → Forall validated (lineups (self w'))) ∧
    (0 ≤ num_lineups (self w) →
     Z.of_nat (length (lineups (self w))) ≤ num_lineups (self w) →
     Z.of_nat (length (lineups (self w'))) =
       Z.min (num_lineups (self w))
             (Z.of_nat (length (lineups (self w))) + 10 * Z.of_nat k)).
Proof.
  revert w. induction fuel as [|fuel IH]; intros w; cbn [run_loop]; [discriminate|].
  intros (t & w1 & [= <- <-] & H)%bind_Ok. cbn in H.
  case_decide as Ht.
  - apply bind_Ok in H as ([] & w2 & Hround & Hloop).
    destruct (IH _ Hloop) as (k & Hpos & Hbefore & Hafter & HN & Hval & Hlen).
    pose proof (round_body_validated _ _ _ Hround) as Hval2.
    pose proof (round_body_length _ _ _ Hround) as Hlen2.
    apply round_body_Ok in Hround as (? & ? & _ & _ & _ & Hself & Hclock).
    cbn in *. rewrite Hself in HN, Hlen. cbn in HN, Hlen.
    exists (S k). rewrite Hclock in Hpos, Hbefore, Hafter. cbn in Hpos, Hbefore, Hafter.
    split; [lia|]. split; [|split; [|split; [done|split; [tauto|]]]].
    + intros [|j] Hj.
      * by rewrite Nat.add_0_r.
      * replace (clock_pos w + S j)%nat with (S (clock_pos w + j)) by lia.
        apply Hbefore. lia.
    + by replace (clock_pos w + S k)%nat with (S (clock_pos w + k)) by lia.
    + intros H0 HL. specialize (Hlen2 H0). rewrite Hself in Hlen2.
      cbn in Hlen2. rewrite Hlen by lia. lia.
  - apply ret_Ok in H. simplify_eq. exists 0%nat. cbn.
    rewrite !Nat.add_0_r. repeat split; try done; lia.
Qed.

(** ** Crossover *)

Lemma slots_cons {A} (l : list A) from len a :
  l !! from = Some a → slots from (S len) l = a :: slots (S from) len l.
Proof. intros H. unfold slots. by rewrite (drop_S _ _ _ H). Qed.

Lemma slots_subseteq_take {A} (l : list A) from len n :
  (from + len ≤ n)%nat → slots from len l ⊆ take n l.
Proof.
  intros Hn x (i & Hi & Hlt)%elem_of_take. rewrite lookup_drop in Hi.
  apply elem_of_take. exists (from + i)%nat. split; [done|lia].
Qed.

Lemma pick_Ok role (w : world float) p w' :
  pick role w = Ok (p, w') → p ∈ role (self w) ∧ self w' = self w.
Proof.
  intros H. split; [|by eapply preserves_pick_self].
  unfold pick, random_item in H.
  apply bind_Ok in H as (l & ? & [= -> ->]%gets_Ok & H).
  apply bind_Ok in H as (i & w1 & _ & (? & Hi & [= -> ->])%liftR_Ok).
  by eapply py_index_elem_of.
Qed.

Lemma grab_players_Ok pool n (w : world float) picked rest w' :
  grab_players pool n w = Ok ((picked, rest), w') →
  picked ++ rest ≡ₚ pool ∧ length picked = n.
Proof.
  revert pool w picked. induction n as [|n IH]; intros pool w picked; cbn [grab_players].
  - intros H%ret_Ok. by simplify_eq.
  - intros (i & w1 & [Hi _]%randint_Ok & H)%bind_Ok.
    apply bind_Ok in H as (c & ? & (? & Hc & [= -> ->])%liftR_Ok & H).
    apply bind_Ok in H as ([picked' rest'] & w2 & Hrec & H%ret_Ok).
    simplify_eq. destruct (IH _ _ _ Hrec) as [Hperm <-]. split; [|done].
    apply py_index_lookup in Hc; [|lia].
    cbn. rewrite Hperm. symmetry. by apply delete_Permutation.
Qed.

Lemma mate_pools_Ok l1 l2 (w : world float) ps w' :
  mate_pools l1 l2 w = Ok (ps, w') →
  ∃ xc xw xd xg xu,
    (xc ∈ centers (self w) ∧ xw ∈ wingers (self w) ∧ xd ∈ defencemen (self w) ∧
     xg ∈ goalies (self w) ∧ xu ∈ utils (self w)) ∧
    pool_centers ps = slots 0 2 l1 ++ slots 0 2 l2 ++ [Player xc] ∧
    pool_wingers ps = slots 2 3 l1 ++ slots 2 3 l2 ++ [Player xw] ∧
    pool_defencemen ps = slots 5 2 l1 ++ slots 5 2 l2 ++ [Player xd] ∧
    pool_goalies ps = slots 7 1 l1 ++ slots 7 1 l2 ++ [Player xg] ∧
    pool_utils ps = slots 8 1 l1 ++ slots 8 1 l2 ++ [Player xu].
Proof.
  unfold mate_pools. intros H.
  repeat match type of H with
  | (liftR _ ≫= _) _ = Ok _ =>
      let Hi := fresh "Hi" in
      apply bind_Ok in H as (? & ? & (? & Hi & [= -> ->])%liftR_Ok & H);
      apply py_index_lookup in Hi; [|lia]; cbn in Hi
  | (pick _ ≫= _) _ = Ok _ =>
      let Hp := fresh "Hp" in let Hs := fresh "Hs" in
      apply bind_Ok in H as (? & ? & [Hp Hs]%pick_Ok & H)
  end.
  apply ret_Ok in H. simplify_eq. cbn.
  repeat match goal with
  | Hi : context [Z.to_nat ?n] |- _ =>
      let m := eval vm_compute in (Z.to_nat n) in change (Z.to_nat n) with m in Hi
  end.
  rewrite Hs2, Hs1, Hs0, Hs in Hp3. rewrite Hs1, Hs0, Hs in Hp2.
  rewrite Hs0, Hs in Hp1. rewrite Hs in Hp0.
  eexists _, _, _, _, _. split; [done|].
  repeat erewrite slots_cons by eassumption. done.
Qed.

Lemma mate_select_Ok ps (w : world float) cand w' :
  mate_select ps w = Ok (cand, w') →
  ∃ cs ws ds gs us rc rw rd rg ru,
    cand = cs ++ ws ++ ds ++ gs ++ us ∧
    (length cs = 2%nat ∧ cs ++ rc ≡ₚ pool_centers ps) ∧
    (length ws = 3%nat ∧ ws ++ rw ≡ₚ pool_wingers ps) ∧
    (length ds = 2%nat ∧ ds ++ rd ≡ₚ pool_defencemen ps) ∧
    (length gs = 1%nat ∧ gs ++ rg ≡ₚ pool_goalies ps) ∧
    (length us = 1%nat ∧ us ++ ru ≡ₚ pool_utils ps).
Proof.
  unfold mate_select. intros H.
  apply bind_Ok in H as ([cs rc] & ? & [Pc Lc]%grab_players_Ok & H).
  apply bind_Ok in H as ([ws rw] & ? & [Pw Lw]%grab_players_Ok & H).
  apply bind_Ok in H as ([ds rd] & ? & [Pd Ld]%grab_players_Ok & H).
  apply bind_Ok in H as ([gs rg] & ? & [Pg Lg]%grab_players_Ok & H).
  apply bind_Ok in H as ([us ru] & ? & [Pu Lu]%grab_players_Ok & H%ret_Ok).
  simplify_eq. by exists cs, ws, ds, gs, us, rc, rw, rd, rg, ru.
Qed.

(** The child of an accepted attempt is the candidate with its two
    fields. *)
Lemma mate_attempt_Ok l1 l2 (w : world float) ps child w' :
  mate_attempt l1 l2 w = Ok ((ps, (true, child)), w') →
  ∃ w1 cand sal proj,
    mate_pools l1 l2 w = Ok (ps, w1) ∧
    mate_select ps w1 = Ok (cand, w') ∧
    child = cand ++ [Int sal; Float proj].
Proof.
  unfold mate_attempt. intros H.
  apply bind_Ok in H as (ps' & w1 & Hpools & H).
  apply bind_Ok in H as (cand & w2 & Hsel & H).
  apply bind_Ok in H as ([ok out] & w3 & Hcv & H%ret_Ok). simplify_eq.
  apply check_valid_Ok in Hcv as (qs & -> & -> & Hr).
  case_decide; simplify_eq. by eexists _, _, _, _.
Qed.

(** A call of [mate_lineups] that returns has made an attempt that was
    accepted, in a world with the same object. *)
Lemma mate_lineups_Ok depth l1 l2 (w : world float) child w' :
  mate_lineups depth l1 l2 w = Ok (child, w') →
  ∃ w0 ps, self w0 = self w ∧
    mate_attempt l1 l2 w0 = Ok ((ps, (true, child)), w').
Proof.
  revert w. induction depth as [|d IH]; intros w; cbn [mate_lineups];
    [discriminate|].
  intros ([ps [[] out]] & w1 & Ha & H)%bind_Ok.
  - apply ret_Ok in H. simplify_eq. by exists w, ps.
  - destruct (IH _ H) as (w0 & ps' & Hself & Hacc).
    exists w0, ps'. split; [|done].
    rewrite Hself. by eapply preserves_mate_attempt_self.
Qed.

Lemma from_pool (picked rest : list (cell float)) from len l1 l2 x c :
  picked ++ rest ≡ₚ slots from len l1 ++ slots from len l2 ++ [Player x] →
  (from + len ≤ 9)%nat → c ∈ picked →
  c ∈ take 9 l1 ∨ c ∈ take 9 l2 ∨ c = Player x.
Proof.
  intros Hperm Hle Hc.
  assert (c ∈ picked ++ rest) as Hin by (apply elem_of_app; by left).
  rewrite Hperm in Hin.
  apply elem_of_app in Hin as [Hin|Hin]; [left; by eapply slots_subseteq_take|].
  apply elem_of_app in Hin as [Hin|Hin]; [right; left; by eapply slots_subseteq_take|].
  right; right. by apply list_elem_of_singleton in Hin.
Qed.

(** ** Saving *)

Lemma py_index_nonneg_Z {A} (l : list A) (i : Z) :
  0 ≤ i →
  py_index l i = match l !! Z.to_nat i with Some a => Ok a | None => Err IndexError end.
Proof. intros Hi. rewrite <- (Z2Nat.id i) at 1 by done. apply py_index_nonneg. Qed.

Lemma differs_from_next_spec (rows : list (list (field float))) i :
  0 ≤ i →
  differs_from_next rows i =
    if decide (i + 1 < Z.of_nat (length rows)) then Ok (differs rows i)
    else Err IndexError.
Proof.
  intros Hi. unfold differs_from_next, differs.
  rewrite !py_index_nonneg_Z by lia.
  case_decide as Hlt.
  - destruct (lookup_lt_is_Some_2 rows (Z.to_nat i)) as [a ->]; [lia|].
    destruct (lookup_lt_is_Some_2 rows (Z.to_nat (i + 1))) as [b ->]; [lia|].
    reflexivity.
  - destruct (rows !! Z.to_nat i) as [a|]; [|done]. cbn.
    by rewrite (lookup_ge_None_2 rows (Z.to_nat (i + 1))) by lia.
Qed.

Lemma filterM_spec {A} (f : A → result bool) (P : A → Prop) `{∀ x, Decision (P x)}
    (g : A → bool) e l :
  (∀ x, x ∈ l → f x = if decide (P x) then Ok (g x) else Err e) →
  filterM f l =
    if decide (Forall P l) then Ok (filter (λ x, g x = true) l) else Err e.
Proof.
  induction l as [|x l IH]; intros Hf; cbn [filterM].
  - by rewrite decide_True by constructor.
  - rewrite (Hf x) by left. rewrite IH by (intros y Hy; apply Hf; by right).
    destruct (decide (P x)) as [Hx|Hx].
    + destruct (decide (Forall P l)) as [Hl|Hl].
      * rewrite (decide_True (P := Forall P (x :: l))) by by constructor.
        destruct (g x) eqn:Hg.
        -- by rewrite filter_cons_True by done.
        -- by rewrite filter_cons_False by (rewrite Hg; done).
      * rewrite (decide_False (P := Forall P (x :: l))); [reflexivity|].
        by intros [_ ?]%Forall_cons.
    + rewrite (decide_False (P := Forall P (x :: l))); [reflexivity|].
      by intros [? _]%Forall_cons.
Qed.

Lemma mapM_py_index (rows : list (list (field float))) (kept : list Z) :
  Forall (λ i, 0 ≤ i < Z.of_nat (length rows)) kept →
  mapM (py_index rows) kept = Ok (row_at rows <$> kept).
Proof.
  induction 1 as [|i kept Hi _ IH]; [done|].
  cbn [mapM]. rewrite IH, py_index_nonneg_Z by lia.
  assert (rows !! Z.to_nat i = Some (row_at rows i)) as ->; [|reflexivity].
  unfold row_at.
  destruct (lookup_lt_is_Some_2 rows (Z.to_nat i)) as [a ->]; [lia|done].
Qed.

(** [save_file] raises exactly when one of the indices [i] of
    [range(num_lineups - 1)] has no row [i + 1]; otherwise it writes the
    rows whose index passes the test. *)
Lemma save_file_spec (w : world float) :
  save_file w =
    let rows := table (self w) in
    let range := seqZ 0 (num_lineups (self w) - 1) in
    if decide (Forall (λ i, i + 1 < Z.of_nat (length rows)) range) then
      let out := row_at rows <$> filter (λ i, differs rows i = true) range in
      Ok ((header :: out, header_for_upload :: map (py_take 9) out), w)
    else Err IndexError.
Proof.
  unfold save_file, dedup, kept_indices. cbv zeta.
  unfold mbind at 1, M_bind at 1, gets at 1.
  unfold mbind at 1, M_bind at 1, gets at 1.
  unfold mbind at 1, M_bind at 1, liftR.
  change (map (map to_field) (lineups (self w))) with (table (self w)).
  rewrite (filterM_spec _ (λ i, i + 1 < Z.of_nat (length (table (self w))))
             (differs (table (self w))) IndexError).
  2:{ intros i [Hi _]%elem_of_seqZ. by apply differs_from_next_spec. }
  case_decide as Hall; [|reflexivity]. cbn.
  rewrite mapM_py_index; [done|].
  apply Forall_forall. intros i [_ Hi]%list_elem_of_filter.
  rewrite Forall_forall in Hall. specialize (Hall _ Hi).
  apply elem_of_seqZ in Hi. lia.
Qed.

(** ** Loading *)

Lemma bucket_cons c (p : player float) ps :
  bucket c (p :: ps) = bucket c [p] ++ bucket c ps.
Proof. unfold bucket, active. by rewrite (filter_app _ [p] ps), filter_app. Qed.

Lemma non_goalies_cons (p : player float) ps :
  non_goalies (p :: ps) = non_goalies [p] ++ non_goalies ps.
Proof. unfold non_goalies, active. by rewrite (filter_app _ [p] ps), filter_app. Qed.

Lemma store_player_spec (p : player float) g :
  goalies (store_player p g) = goalies g ++ bucket "G" [p] ∧
  centers (store_player p g) = centers g ++ bucket "C" [p] ∧
  wingers (store_player p g) = wingers g ++ bucket "W" [p] ∧
  defencemen (store_player p g) = defencemen g ++ bucket "D" [p] ∧
  utils (store_player p g) = utils g ++ non_goalies [p] ∧
  lineups (store_player p g) = lineups g ∧
  num_lineups (store_player p g) = num_lineups g ∧
  duration (store_player p g) = duration g.
Proof.
  unfold store_player, is_role, bucket, non_goalies, active.
  destruct (float_nonzero (avePoints p)) eqn:Hnz.
  - rewrite (filter_cons_True _ p []) by done.
    rewrite !filter_cons, !filter_nil.
    repeat case_bool_decide; repeat case_decide; cbn; rewrite ?app_nil_r;
      try done; congruence.
  - rewrite (filter_cons_False _ p []) by (rewrite Hnz; done).
    rewrite !filter_nil, !app_nil_r. done.
Qed.

Lemma load_rows_Ok rows (g g' : GeneticNHL float) :
  load_rows rows g = Ok g' →
  ∃ ps, mapM read_player rows = Ok ps ∧
    goalies g' = goalies g ++ bucket "G" ps ∧
    centers g' = centers g ++ bucket "C" ps ∧
    wingers g' = wingers g ++ bucket "W" ps ∧
    defencemen g' = defencemen g ++ bucket "D" ps ∧
    utils g' = utils g ++ non_goalies ps ∧
    lineups g' = lineups g ∧
    num_lineups g' = num_lineups g ∧
    duration g' = duration g.
Proof.
  revert g. induction rows as [|row rows IH]; intros g; cbn [load_rows mapM].
  - intros [= <-]. exists []. by rewrite !app_nil_r.
  - intros (p & Hp & (ps & Hps & HG & HC & HW & HD & HU & HL & HN & Hd)%IH)%rbind_Ok.
    destruct (store_player_spec p g) as (EG & EC & EW & ED & EU & EL & EN & Ed).
    exists (p :: ps). rewrite Hp, Hps. split; [done|].
    rewrite (bucket_cons "G" p ps), (bucket_cons "C" p ps), (bucket_cons "W" p ps),
      (bucket_cons "D" p ps), (non_goalies_cons p ps), !app_assoc.
    rewrite HG, HC, HW, HD, HU, HL, HN, Hd, EG, EC, EW, ED, EU, EL, EN, Ed. done.
Qed.

(** ** The validator *)

(** C1: [check_valid] on a candidate made of players: it never raises,
    it accepts exactly when the summed salary is below 50000, the set of
    team codes has at least 3 elements and the set of names has exactly 9,
    and on acceptance the list returned is the candidate followed by the
    total salary and then the rounded total projection.  This holds for
    any number of players, 9 in particular. *)
Theorem check_valid_accepts_iff (ps : list (player float)) (w : world float) :
  ∃ ok out,
    check_valid (Player <$> ps) w = Ok ((ok, out), w) ∧
    (ok = true ↔
       sum_Z (salary <$> ps) < 50000 ∧
       (3 ≤ size (list_to_set (teamAbbrev <$> ps) : gset string))%nat ∧
       size (list_to_set (name <$> ps) : gset string) = 9%nat) ∧
    (ok = true →
       out = (Player <$> ps) ++
             [Int (sum_Z (salary <$> ps)); Float (round2 (fsum (avePoints <$> ps)))]).
Proof.
  rewrite check_valid_players, <- !distinct_size.
  destruct (decide (within_rules ps)) as [Hin|Hout]; eexists _, _;
    (split; [reflexivity|]); split.
  - split; [intros _; exact Hin | reflexivity].
  - reflexivity.
  - split; [discriminate | intros H; by destruct Hout].
  - discriminate.
Qed.

(** C8: when [check_valid] returns [False], the candidate list holds what
    it held before the call, no field was appended, and the object (its
    five player sequences and its population) and the rest of the world
    are unchanged. *)
Theorem check_valid_reject_untouched (lineup out : list (cell float)) (w w' : world float) :
  check_valid lineup w = Ok ((false, out), w') →
  out = lineup ∧ w' = w.
Proof.
  intros (ps & -> & -> & Hr)%check_valid_Ok.
  case_decide; by simplify_eq.
Qed.

(** C6, as amended: once a candidate is accepted, validating its player
    slots again (the returned list without its two trailing fields)
    accepts again with the same salary and projection fields, whereas
    validating the returned list itself raises [TypeError], its last two
    elements being numbers. *)
Theorem check_valid_again (lineup out : list (cell float)) (w w' : world float) :
  check_valid lineup w = Ok ((true, out), w') →
  check_valid (take (length out - 2) out) w' = Ok ((true, out), w') ∧
  check_valid out w' = Err TypeError.
Proof.
  intros H. pose proof H as (ps & -> & -> & Hr)%check_valid_Ok.
  case_decide; simplify_eq. split.
  - rewrite length_app, Nat.add_sub, take_app_length. exact H.
  - apply check_valid_number. exists (Int (total_salary ps)).
    split; [|done]. apply elem_of_app. right. left.
Qed.

(** ** The evolution loop *)


(** C5: the lineups that a call of [get_lineups] adds to the population,
    whether they come from [generate_lineup] or from [mate_lineups], have
    all been accepted by [check_valid]: each is a list of players followed
    by their total salary and rounded projection, the salary is below
    50000, the players are of at least 3 teams, and they bear exactly 9
    distinct names. *)
Theorem added_lineups_validated depth (w w' : world float) :
  get_lineups depth w = Ok (tt, w') →
  ∃ added,
    lineups (self w') = lineups (self w) ++ added ∧
    Forall (λ l, ∃ ps : list (player float),
              l = (Player <$> ps) ++
                  [Int (sum_Z (salary <$> ps)); Float (round2 (fsum (avePoints <$> ps)))] ∧
              sum_Z (salary <$> ps) < 50000 ∧
              (3 ≤ size (list_to_set (teamAbbrev <$> ps) : gset string))%nat ∧
              size (list_to_set (name <$> ps) : gset string) = 9%nat)
           added.
Proof.
  intros (added & _ & HF & -> & _)%get_lineups_effect.
  exists added. split; [done|].
  eapply Forall_impl; [exact HF|]. intros l (ps & -> & Hin).
  exists ps. by rewrite <- !distinct_size.
Qed.

(** The population stays made of accepted lineups throughout [run]: the
    loop only sorts it and cuts it. *)
Lemma run_validated fuel depth (w w' : world float) :
  Forall validated (lineups (self w)) →
  run fuel depth w = Ok (tt, w') →
  Forall validated (lineups (self w')).
Proof.
  intros Hval. unfold run.
  intros (t & w1 & [= <- <-] & (d & ? & [= -> ->]%gets_Ok & H)%bind_Ok)%bind_Ok.
  apply run_loop_Ok in H as (k & _ & _ & _ & _ & H & _). by apply H.
Qed.


(** ** The crossover engine *)

(** C4: the child returned by [mate_lineups] comes from an accepted
    attempt whose five local pools were the parents' slots of the role
    followed by one player drawn from the object's sequence of that role.
    The child is 2 cells of the centers' pool, 3 of the wingers', 2 of the
    defencemen's, 1 of the goalies' and 1 of the utilities', followed by
    the two fields; in each pool the cells chosen together with the cells
    left make up the pool again, element for element, so no position of a
    pool is chosen twice.  Hence each of the 9 players of the child is
    among the first 9 cells of a parent or is one of the five extra
    draws. *)
Theorem mate_lineups_origin depth l1 l2 (w w' : world float) child :
  mate_lineups depth l1 l2 w = Ok (child, w') →
  ∃ w0 xc xw xd xg xu cs ws ds gs us rc rw rd rg ru sal proj,
    self w0 = self w ∧
    mate_attempt l1 l2 w0 =
      Ok (({| pool_centers := slots 0 2 l1 ++ slots 0 2 l2 ++ [Player xc];
              pool_wingers := slots 2 3 l1 ++ slots 2 3 l2 ++ [Player xw];
              pool_defencemen := slots 5 2 l1 ++ slots 5 2 l2 ++ [Player xd];
              pool_goalies := slots 7 1 l1 ++ slots 7 1 l2 ++ [Player xg];
              pool_utils := slots 8 1 l1 ++ slots 8 1 l2 ++ [Player xu] |},
           (true, child)), w') ∧
    (xc ∈ centers (self w) ∧ xw ∈ wingers (self w) ∧ xd ∈ defencemen (self w) ∧
     xg ∈ goalies (self w) ∧ xu ∈ utils (self w)) ∧
    child = cs ++ ws ++ ds ++ gs ++ us ++ [Int sal; Float proj] ∧
    (length cs = 2%nat ∧ cs ++ rc ≡ₚ slots 0 2 l1 ++ slots 0 2 l2 ++ [Player xc]) ∧
    (length ws = 3%nat ∧ ws ++ rw ≡ₚ slots 2 3 l1 ++ slots 2 3 l2 ++ [Player xw]) ∧
    (length ds = 2%nat ∧ ds ++ rd ≡ₚ slots 5 2 l1 ++ slots 5 2 l2 ++ [Player xd]) ∧
    (length gs = 1%nat ∧ gs ++ rg ≡ₚ slots 7 1 l1 ++ slots 7 1 l2 ++ [Player xg]) ∧
    (length us = 1%nat ∧ us ++ ru ≡ₚ slots 8 1 l1 ++ slots 8 1 l2 ++ [Player xu]) ∧
    (∀ c, c ∈ take 9 child →
       c ∈ take 9 l1 ∨ c ∈ take 9 l2 ∨ c ∈ Player <$> [xc; xw; xd; xg; xu]).
Proof.
  intros (w0 & ps & Hself & Hacc)%mate_lineups_Ok.
  pose proof Hacc as (w1 & cand & sal & proj & Hpools & Hsel & ->)%mate_attempt_Ok.
  apply mate_pools_Ok in Hpools
    as (xc & xw & xd & xg & xu & Hextra & Ec & Ew & Ed & Eg & Eu).
  apply mate_select_Ok in Hsel
    as (cs & ws & ds & gs & us & rc & rw & rd & rg & ru & -> &
        [Lc Pc] & [Lw Pw] & [Ld Pd] & [Lg Pg] & [Lu Pu]).
  rewrite Hself in Hextra. rewrite Ec in Pc. rewrite Ew in Pw. rewrite Ed in Pd.
  rewrite Eg in Pg. rewrite Eu in Pu.
  destruct ps as [pc pw pd pg pu]. cbn in Ec, Ew, Ed, Eg, Eu. subst pc pw pd pg pu.
  exists w0, xc, xw, xd, xg, xu, cs, ws, ds, gs, us, rc, rw, rd, rg, ru, sal, proj.
  split; [done|]. split; [done|]. split; [done|].
  split; [by rewrite <- !app_assoc|].
  do 5 (split; [done|]).
  intros c. rewrite take_app_length' by (rewrite !length_app; lia).
  rewrite !elem_of_app. cbn. rewrite !elem_of_cons.
  intros [Hc|[Hc|[Hc|[Hc|Hc]]]];
    [ destruct (from_pool _ _ _ _ _ _ _ _ Pc ltac:(lia) Hc) as [?|[?|?]]
    | destruct (from_pool _ _ _ _ _ _ _ _ Pw ltac:(lia) Hc) as [?|[?|?]]
    | destruct (from_pool _ _ _ _ _ _ _ _ Pd ltac:(lia) Hc) as [?|[?|?]]
    | destruct (from_pool _ _ _ _ _ _ _ _ Pg ltac:(lia) Hc) as [?|[?|?]]
    | destruct (from_pool _ _ _ _ _ _ _ _ Pu ltac:(lia) Hc) as [?|[?|?]] ];
    tauto.
Qed.

(** ** Loading the roster *)


(** ** Saving the lineups *)


(** C10, as amended: when the population holds fewer than [num_lineups]
    lineups and [num_lineups] is at least 2, [save_file] raises
    [IndexError]: the index [num_lineups - 2] is visited and row
    [num_lineups - 1] does not exist. *)
Theorem save_file_short_population (w : world float) :
  Z.of_nat (length (lineups (self w))) < num_lineups (self w) →
  2 ≤ num_lineups (self w) →
  save_file w = Err IndexError.
Proof.
  intros Hshort Hn. rewrite save_file_spec. cbv zeta.
  rewrite decide_False; [done|].
  intros Hall. rewrite Forall_forall in Hall.
  specialize (Hall (num_lineups (self w) - 2)).
  unfold table in Hall. rewrite length_map in Hall.
  assert (num_lineups (self w) - 2 ∈ seqZ 0 (num_lineups (self w) - 1)) as Hin
    by (apply elem_of_seqZ; lia).
  specialize (Hall Hin). lia.
Qed.

(** * Further properties *)

(** ** Errors *)

Lemma bind_Err {A C} (m : M float A) (f : A → M float C) w e :
  m w = Err e → (m ≫= f) w = Err e.
Proof. unfold mbind, M_bind. by intros ->. Qed.

Lemma bind_Ok_eq {A C} (m : M float A) (f : A → M float C) w a w1 :
  m w = Ok (a, w1) → (m ≫= f) w = f a w1.
Proof. unfold mbind, M_bind. by intros ->. Qed.


Lemma draw_Some {A} (l : list A) i :
  l ≠ [] → ∃ a, draw l i = Some a ∧ a ∈ l.
Proof.
  intros Hl. unfold draw.
  assert (0 < Z.of_nat (length l)) as Hlen by (destruct l; [done|cbn; lia]).
  pose proof (Z.mod_pos_bound (rand i) _ Hlen) as Hb.
  destruct (lookup_lt_is_Some_2 l (Z.to_nat (rand i `mod` Z.of_nat (length l))))
    as [a Ha]; [lia|].
  exists a. split; [done|]. by eapply list_elem_of_lookup_2.
Qed.

Lemma draw_elem_of {A} (l : list A) i a : draw l i = Some a → a ∈ l.
Proof. unfold draw. apply list_elem_of_lookup_2. Qed.

Lemma random_item_spec {A} (l : list A) (w : world float) :
  random_item l w =
    match draw l (rand_pos w) with
    | Some a => Ok (a, advance 1 w)
    | None => Err ValueError
    end.
Proof.
  unfold random_item, mbind, M_bind, randint.
  destruct l as [|x l]; [reflexivity|].
  rewrite decide_False by (cbn [length]; lia).
  replace (Z.of_nat (length (x :: l)) - 1 - 0 + 1) with (Z.of_nat (length (x :: l)))
    by lia.
  rewrite Z.add_0_l.
  destruct (draw_Some (x :: l) (rand_pos w)) as (a & Ha & _); [done|].
  rewrite Ha. unfold draw in Ha.
  pose proof (Z.mod_pos_bound (rand (rand_pos w)) (Z.of_nat (length (x :: l))))
    as Hb.
  unfold liftR. rewrite py_index_nonneg_Z by (cbn [length] in *; lia).
  by rewrite Ha.
Qed.

Lemma pick_spec role (w : world float) :
  pick role w =
    match draw (role (self w)) (rand_pos w) with
    | Some a => Ok (a, advance 1 w)
    | None => Err ValueError
    end.
Proof. unfold pick, mbind, M_bind, gets. apply random_item_spec. Qed.

Lemma candidate_None (g : GeneticNHL float) i : ¬ stocked g → candidate g i = None.
Proof.
  intros Hs. unfold candidate.
  destruct (centers g) as [|c cs] eqn:Ec; [done|].
  destruct (draw_Some (c :: cs) i) as (? & -> & _); [done|].
  destruct (draw_Some (c :: cs) (1 + i)) as (? & -> & _); [done|]. cbn [mbind option_bind].
  destruct (wingers g) as [|y ys] eqn:Ew; [done|].
  destruct (draw_Some (y :: ys) (2 + i)) as (? & -> & _); [done|].
  destruct (draw_Some (y :: ys) (3 + i)) as (? & -> & _); [done|].
  destruct (draw_Some (y :: ys) (4 + i)) as (? & -> & _); [done|]. cbn [mbind option_bind].
  destruct (defencemen g) as [|d ds] eqn:Ed; [done|].
  destruct (draw_Some (d :: ds) (5 + i)) as (? & -> & _); [done|].
  destruct (draw_Some (d :: ds) (6 + i)) as (? & -> & _); [done|]. cbn [mbind option_bind].
  destruct (goalies g) as [|k ks] eqn:Eg; [done|].
  destruct (draw_Some (k :: ks) (7 + i)) as (? & -> & _); [done|]. cbn [mbind option_bind].
  destruct (utils g) as [|u us] eqn:Eu; [done|].
  destruct Hs. unfold stocked. by rewrite Ec, Ew, Ed, Eg, Eu.
Qed.

Lemma candidate_Some (g : GeneticNHL float) i :
  stocked g → ∃ ps, candidate g i = Some ps ∧ drawn_from g ps.
Proof.
  intros (Hc & Hw & Hd & Hg & Hu). unfold candidate.
  destruct (draw_Some _ i Hc) as (c1 & -> & ?).
  destruct (draw_Some _ (1 + i) Hc) as (c2 & -> & ?).
  destruct (draw_Some _ (2 + i) Hw) as (w1 & -> & ?).
  destruct (draw_Some _ (3 + i) Hw) as (w2 & -> & ?).
  destruct (draw_Some _ (4 + i) Hw) as (w3 & -> & ?).
  destruct (draw_Some _ (5 + i) Hd) as (d1 & -> & ?).
  destruct (draw_Some _ (6 + i) Hd) as (d2 & -> & ?).
  destruct (draw_Some _ (7 + i) Hg) as (gk & -> & ?).
  destruct (draw_Some _ (8 + i) Hu) as (u & -> & ?).
  eexists. split; [reflexivity|].
  by exists c1, c2, w1, w2, w3, d1, d2, gk, u.
Qed.

(** One attempt of [generate_lineup], as a function of the random values
    it reads. *)
Lemma generate_lineup_S d (w : world float) :
  generate_lineup (S d) w =
    match candidate (self w) (rand_pos w) with
    | None => Err ValueError
    | Some ps =>
        if decide (within_rules ps)
        then Ok ((Player <$> ps) ++ [Int (total_salary ps); Float (projection ps)],
                 advance 9 w)
        else generate_lineup d (advance 9 w)
    end.
Proof.
  cbn [generate_lineup]. unfold candidate.
  repeat (unfold mbind at 1, M_bind at 1; rewrite pick_spec;
          cbn [self rand_pos advance Nat.add];
          match goal with
          | |- context [draw ?l ?i] => destruct (draw l i); [|reflexivity]
          end; cbn [mbind option_bind]).
  unfold mbind at 1, M_bind at 1. rewrite check_valid_players.
  case_decide; reflexivity.
Qed.

Lemma advance_advance n m (w : world float) :
  advance n (advance m w) = advance (n + m) w.
Proof. unfold advance. cbn. f_equal. lia. Qed.

Lemma drawn_from_all (g : GeneticNHL float) ps p :
  drawn_from g ps → p ∈ ps → p ∈ all_players g.
Proof.
  intros (c1 & c2 & w1 & w2 & w3 & d1 & d2 & gk & u & -> &
          [??] & (? & ? & ?) & [??] & ? & ?) Hp.
  unfold all_players. rewrite !elem_of_app.
  repeat (apply elem_of_cons in Hp as [->|Hp]; [tauto|]).
  by apply elem_of_nil in Hp.
Qed.

Lemma lineup_of_validated (g : GeneticNHL float) l : lineup_of g l → validated l.
Proof. intros (ps & _ & Hin & ->). by exists ps. Qed.

(** [generate_lineup] in terms of the candidates it draws, nine random
    values at a time: it returns the first one that passes the rules. *)
Lemma generate_lineup_Ok depth (w : world float) l w' :
  generate_lineup depth w = Ok (l, w') →
  ∃ (k : nat) ps,
    (k < depth)%nat ∧
    candidate (self w) (9 * k + rand_pos w) = Some ps ∧
    within_rules ps ∧
    (∀ j, (j < k)%nat →
       ∃ qs, candidate (self w) (9 * j + rand_pos w) = Some qs ∧ ¬ within_rules qs) ∧
    l = (Player <$> ps) ++ [Int (total_salary ps); Float (projection ps)] ∧
    w' = advance (9 * S k) w.
Proof.
  revert w. induction depth as [|d IH]; intros w; [discriminate|].
  rewrite generate_lineup_S.
  destruct (candidate (self w) (rand_pos w)) as [ps|] eqn:Hc; [|discriminate].
  case_decide as Hr.
  - intros [= <- <-]. exists 0%nat, ps. split; [lia|]. split; [done|].
    split; [done|]. split; [intros j Hj; lia|]. done.
  - intros (k & qs & Hk & Hq & Hin & Hbefore & -> & ->)%IH.
    cbn [self rand_pos advance] in Hq, Hbefore.
    exists (S k), qs. split; [lia|]. split.
    { by replace (9 * S k + rand_pos w)%nat with (9 * k + (9 + rand_pos w))%nat by lia. }
    split; [done|]. split.
    + intros [|j] Hj; [by exists ps|].
      destruct (Hbefore j) as (rs & Hrs & Hnr); [lia|]. exists rs. split; [|done].
      by replace (9 * S j + rand_pos w)%nat with (9 * j + (9 + rand_pos w))%nat by lia.
    + split; [done|]. rewrite advance_advance. f_equal. lia.
Qed.

Lemma generate_lineup_first depth (w : world float) k ps :
  (k < depth)%nat →
  candidate (self w) (9 * k + rand_pos w) = Some ps →
  within_rules ps →
  (∀ j, (j < k)%nat →
     ∃ qs, candidate (self w) (9 * j + rand_pos w) = Some qs ∧ ¬ within_rules qs) →
  generate_lineup depth w =
    Ok ((Player <$> ps) ++ [Int (total_salary ps); Float (projection ps)],
        advance (9 * S k) w).
Proof.
  revert depth w. induction k as [|k IH]; intros depth w Hk Hc Hin Hbefore;
    (destruct depth as [|d]; [lia|]); rewrite generate_lineup_S.
  - cbn [Nat.mul Nat.add] in Hc. rewrite Hc. by rewrite decide_True.
  - destruct (Hbefore 0%nat) as (qs & Hqs & Hnr); [lia|].
    cbn [Nat.mul Nat.add] in Hqs. rewrite Hqs, decide_False by done.
    rewrite (IH d (advance 9 w)); cbn [self rand_pos advance].
    + rewrite advance_advance. do 3 f_equal. lia.
    + lia.
    + by replace (9 * k + (9 + rand_pos w))%nat with (9 * S k + rand_pos w)%nat by lia.
    + done.
    + intros j Hj. destruct (Hbefore (S j)) as (rs & Hrs & Hnrs); [lia|].
      exists rs. split; [|done].
      by replace (9 * j + (9 + rand_pos w))%nat with (9 * S j + rand_pos w)%nat by lia.
Qed.

Lemma generate_lineup_Err depth (w : world float) e :
  stocked (self w) → generate_lineup depth w = Err e → e = RecursionError.
Proof.
  revert w. induction depth as [|d IH]; intros w Hs; [by intros [= <-]|].
  rewrite generate_lineup_S.
  destruct (candidate_Some (self w) (rand_pos w) Hs) as (ps & -> & _).
  case_decide; [discriminate|]. by apply IH.
Qed.

Lemma generate_lineup_hopeless depth (w : world float) :
  stocked (self w) →
  (∀ ps, drawn_from (self w) ps → ¬ within_rules ps) →
  generate_lineup depth w = Err RecursionError.
Proof.
  revert w. induction depth as [|d IH]; intros w Hs Hno; [reflexivity|].
  rewrite generate_lineup_S.
  destruct (candidate_Some (self w) (rand_pos w) Hs) as (ps & -> & Hd).
  rewrite decide_False by by apply Hno. by apply IH.
Qed.

Lemma generate_lineup_lineup_of depth (w : world float) l w' :
  generate_lineup depth w = Ok (l, w') → lineup_of (self w) l.
Proof.
  intros (k & ps & _ & Hc & Hin & _ & -> & _)%generate_lineup_Ok.
  exists ps. split; [|done].
  assert (stocked (self w)) as Hs.
  { apply dec_stable. intros Hn. by rewrite candidate_None in Hc. }
  destruct (candidate_Some (self w) (9 * k + rand_pos w) Hs) as (qs & Hq & Hd).
  congruence.
Qed.

Lemma num_teams_two (ps : list (player float)) t1 t2 :
  (∀ p, p ∈ ps → teamAbbrev p = t1 ∨ teamAbbrev p = t2) → (num_teams ps ≤ 2)%nat.
Proof.
  intros Hp. unfold num_teams, distinct.
  change 2%nat with (length [t1; t2]). apply submseteq_length.
  apply NoDup_submseteq; [apply NoDup_remove_dups|].
  intros t [p [-> Hin]]%elem_of_remove_dups%list_elem_of_fmap.
  destruct (Hp p Hin) as [->| ->]; [left|right; left].
Qed.

(** ** [grab_players] *)

Lemma randint_spec hi (w : world float) :
  0 ≤ hi →
  randint 0 hi w = Ok (rand (rand_pos w) `mod` (hi + 1), advance 1 w).
Proof.
  intros Hhi. unfold randint. rewrite decide_False by lia.
  rewrite Z.add_0_l, Z.sub_0_r. reflexivity.
Qed.

Lemma grab_players_enough pool n (w : world float) :
  (n ≤ length pool)%nat →
  ∃ picked rest,
    grab_players pool n w = Ok ((picked, rest), advance n w) ∧
    length picked = n ∧ length rest = (length pool - n)%nat ∧
    picked ++ rest ≡ₚ pool.
Proof.
  revert pool w. induction n as [|n IH]; intros pool w Hn; cbn [grab_players].
  - exists [], pool. split; [by destruct w|]. split; [done|].
    split; [cbn; lia|done].
  - destruct pool as [|x pool']; [cbn in Hn; lia|].
    set (pool := x :: pool') in *.
    assert (0 < Z.of_nat (length pool)) as Hlen by (cbn; lia).
    pose proof (Z.mod_pos_bound (rand (rand_pos w)) _ Hlen) as Hb.
    rewrite (bind_Ok_eq _ _ _ _ _
             (randint_spec (Z.of_nat (length pool) - 1) w ltac:(lia))).
    replace (Z.of_nat (length pool) - 1 + 1) with (Z.of_nat (length pool)) by lia.
    set (i := rand (rand_pos w) `mod` Z.of_nat (length pool)) in *.
    destruct (lookup_lt_is_Some_2 pool (Z.to_nat i)) as [c Hc]; [lia|].
    unfold mbind at 1, M_bind at 1, liftR.
    rewrite py_index_nonneg_Z, Hc by lia.
    destruct (IH (delete (Z.to_nat i) pool) (advance 1 w))
      as (picked & rest & Hg & Hp & Hr & Hperm).
    { rewrite length_delete by eauto. cbn [length] in *. lia. }
    cbv beta iota. rewrite (bind_Ok_eq _ _ _ _ _ Hg).
    exists (c :: picked), rest. cbn. rewrite advance_advance.
    replace (n + 1)%nat with (S n) by lia.
    split; [done|]. split; [by rewrite Hp|]. split.
    + rewrite Hr, length_delete by eauto. unfold pool. cbn [length]. lia.
    + rewrite Hperm. symmetry. by apply delete_Permutation.
Qed.

Lemma grab_players_short pool n (w : world float) :
  (length pool < n)%nat → grab_players pool n w = Err ValueError.
Proof.
  revert pool w. induction n as [|n IH]; intros pool w Hn; [lia|].
  cbn [grab_players]. destruct pool as [|x pool']; [reflexivity|].
  set (pool := x :: pool') in *.
  assert (0 < Z.of_nat (length pool)) as Hlen by (cbn; lia).
  pose proof (Z.mod_pos_bound (rand (rand_pos w)) _ Hlen) as Hb.
  rewrite (bind_Ok_eq _ _ _ _ _
             (randint_spec (Z.of_nat (length pool) - 1) w ltac:(lia))).
  replace (Z.of_nat (length pool) - 1 + 1) with (Z.of_nat (length pool)) by lia.
  set (i := rand (rand_pos w) `mod` Z.of_nat (length pool)) in *.
  destruct (lookup_lt_is_Some_2 pool (Z.to_nat i)) as [c Hc]; [lia|].
  unfold mbind at 1, M_bind at 1, liftR.
  rewrite py_index_nonneg_Z, Hc by lia. cbv beta iota.
  apply bind_Err, IH. rewrite length_delete by eauto. cbn [length] in *. lia.
Qed.

(** ** [mate_lineups] on lineups of the search *)

Lemma lineup_of_stocked (g : GeneticNHL float) l : lineup_of g l → stocked g.
Proof.
  intros (ps & (c1 & c2 & w1 & w2 & w3 & d1 & d2 & gk & u & -> &
                [Hc _] & (Hw & _ & _) & [Hd _] & Hg & Hu) & _).
  unfold stocked. repeat split; intros E; rewrite E in *;
    by eapply elem_of_nil.
Qed.

Lemma py_index_in {A} (l : list A) (k : Z) :
  0 ≤ k < Z.of_nat (length l) → ∃ a, py_index l k = Ok a ∧ l !! Z.to_nat k = Some a.
Proof.
  intros Hk. rewrite py_index_nonneg_Z by lia.
  destruct (lookup_lt_is_Some_2 l (Z.to_nat k)) as [a Ha]; [lia|].
  exists a. by rewrite Ha.
Qed.

Lemma mate_pools_total l1 l2 (w : world float) :
  stocked (self w) → (9 ≤ length l1)%nat → (9 ≤ length l2)%nat →
  ∃ ps, mate_pools l1 l2 w = Ok (ps, advance 5 w).
Proof.
  intros (Hc & Hw & Hd & Hg & Hu) H1 H2. unfold mate_pools.
  repeat first
    [ match goal with
      | |- context [liftR (py_index ?l ?k)] =>
          let a := fresh "a" in let Ha := fresh "Ha" in
          destruct (py_index_in l k) as (a & Ha & _); [lia|];
          rewrite (bind_Ok_eq (liftR (py_index l k)) _ _ a _)
            by (unfold liftR; by rewrite Ha)
      end
    | match goal with
      | |- context [(pick ?r ≫= ?f) ?w0] =>
          let a := fresh "x" in let Ha := fresh "Hx" in
          destruct (draw_Some (r (self w)) (rand_pos w0)) as (a & Ha & _); [done|];
          rewrite (bind_Ok_eq (pick r) f w0 a (advance 1 w0))
            by (rewrite pick_spec; cbn [self advance]; by rewrite Ha)
      end ].
  eexists. unfold mret, M_ret. do 2 f_equal.
Qed.

Lemma grab_players_from (P : cell float → Prop) pool n (w : world float) :
  Forall P pool → (n ≤ length pool)%nat →
  ∃ picked rest,
    grab_players pool n w = Ok ((picked, rest), advance n w) ∧
    length picked = n ∧ Forall P picked.
Proof.
  intros HP Hn.
  destruct (grab_players_enough pool n w Hn) as (picked & rest & Hg & Hl & _ & Hperm).
  exists picked, rest. split; [done|]. split; [done|].
  rewrite <- Hperm in HP. by apply Forall_app in HP as [? _].
Qed.

Lemma cells_in_one r (l : list (cell float)) :
  length l = 1%nat → Forall (cell_in r) l → ∃ a, l = [Player a] ∧ a ∈ r.
Proof.
  destruct l as [|? [|? ?]]; try discriminate. intros _ Hf.
  apply Forall_cons in Hf as [(a & -> & Ha) _]. by exists a.
Qed.

Lemma cells_in_two r (l : list (cell float)) :
  length l = 2%nat → Forall (cell_in r) l →
  ∃ a b, l = [Player a; Player b] ∧ a ∈ r ∧ b ∈ r.
Proof.
  destruct l as [|? [|? [|? ?]]]; try discriminate. intros _ Hf.
  apply Forall_cons in Hf as [(a & -> & Ha) Hf].
  apply Forall_cons in Hf as [(b & -> & Hb) _]. by exists a, b.
Qed.

Lemma cells_in_three r (l : list (cell float)) :
  length l = 3%nat → Forall (cell_in r) l →
  ∃ a b c, l = [Player a; Player b; Player c] ∧ a ∈ r ∧ b ∈ r ∧ c ∈ r.
Proof.
  destruct l as [|? [|? [|? [|? ?]]]]; try discriminate. intros _ Hf.
  apply Forall_cons in Hf as [(a & -> & Ha) Hf].
  apply Forall_cons in Hf as [(b & -> & Hb) Hf].
  apply Forall_cons in Hf as [(c & -> & Hc) _]. by exists a, b, c.
Qed.

(** The selection step on pools whose cells are players of the right
    sequences: nine random values, and a candidate drawn slot by slot. *)
Lemma mate_select_total (g : GeneticNHL float) ps (w : world float) :
  Forall (cell_in (centers g)) (pool_centers ps) → (2 ≤ length (pool_centers ps))%nat →
  Forall (cell_in (wingers g)) (pool_wingers ps) → (3 ≤ length (pool_wingers ps))%nat →
  Forall (cell_in (defencemen g)) (pool_defencemen ps) →
  (2 ≤ length (pool_defencemen ps))%nat →
  Forall (cell_in (goalies g)) (pool_goalies ps) → (1 ≤ length (pool_goalies ps))%nat →
  Forall (cell_in (utils g)) (pool_utils ps) → (1 ≤ length (pool_utils ps))%nat →
  ∃ qs, drawn_from g qs ∧ mate_select ps w = Ok (Player <$> qs, advance 9 w).
Proof.
  intros Hc Lc Hw Lw Hd Ld Hg Lg Hu Lu. unfold mate_select.
  destruct (grab_players_from _ _ 2 w Hc Lc) as (cs & rc & Ec & Lcs & Fc).
  rewrite (bind_Ok_eq _ _ _ _ _ Ec). cbv beta iota.
  destruct (grab_players_from _ _ 3 (advance 2 w) Hw Lw) as (ws & rw & Ew & Lws & Fw).
  rewrite (bind_Ok_eq _ _ _ _ _ Ew). cbv beta iota.
  destruct (grab_players_from _ _ 2 (advance 3 (advance 2 w)) Hd Ld)
    as (ds & rd & Ed & Lds & Fd).
  rewrite (bind_Ok_eq _ _ _ _ _ Ed). cbv beta iota.
  destruct (grab_players_from _ _ 1 (advance 2 (advance 3 (advance 2 w))) Hg Lg)
    as (gs & rg & Eg & Lgs & Fg).
  rewrite (bind_Ok_eq _ _ _ _ _ Eg). cbv beta iota.
  destruct (grab_players_from _ _ 1
              (advance 1 (advance 2 (advance 3 (advance 2 w)))) Hu Lu)
    as (us & ru & Eu & Lus & Fu).
  rewrite (bind_Ok_eq _ _ _ _ _ Eu). cbv beta iota.
  destruct (cells_in_two _ _ Lcs Fc) as (c1 & c2 & -> & ? & ?).
  destruct (cells_in_three _ _ Lws Fw) as (w1 & w2 & w3 & -> & ? & ? & ?).
  destruct (cells_in_two _ _ Lds Fd) as (d1 & d2 & -> & ? & ?).
  destruct (cells_in_one _ _ Lgs Fg) as (gk & -> & ?).
  destruct (cells_in_one _ _ Lus Fu) as (u & -> & ?).
  exists [c1; c2; w1; w2; w3; d1; d2; gk; u]. split.
  - by exists c1, c2, w1, w2, w3, d1, d2, gk, u.
  - rewrite !advance_advance. reflexivity.
Qed.

Lemma lineup_of_length (g : GeneticNHL float) l : lineup_of g l → length l = 11%nat.
Proof.
  by intros (ps & (c1 & c2 & w1 & w2 & w3 & d1 & d2 & gk & u & -> & _) & _ & ->).
Qed.

(** The pools that two lineups of the search give. *)
Lemma mate_pools_lineup_of (g : GeneticNHL float) l1 l2 (w : world float) :
  self w = g → lineup_of g l1 → lineup_of g l2 →
  ∃ ps, mate_pools l1 l2 w = Ok (ps, advance 5 w) ∧
    (Forall (cell_in (centers g)) (pool_centers ps) ∧ length (pool_centers ps) = 5%nat) ∧
    (Forall (cell_in (wingers g)) (pool_wingers ps) ∧ length (pool_wingers ps) = 7%nat) ∧
    (Forall (cell_in (defencemen g)) (pool_defencemen ps) ∧
     length (pool_defencemen ps) = 5%nat) ∧
    (Forall (cell_in (goalies g)) (pool_goalies ps) ∧ length (pool_goalies ps) = 3%nat) ∧
    (Forall (cell_in (utils g)) (pool_utils ps) ∧ length (pool_utils ps) = 3%nat).
Proof.
  intros Hw H1 H2.
  destruct (mate_pools_total l1 l2 w) as [ps Hps].
  { rewrite Hw. by eapply lineup_of_stocked. }
  { rewrite (lineup_of_length _ _ H1). lia. }
  { rewrite (lineup_of_length _ _ H2). lia. }
  exists ps. split; [done|].
  destruct (mate_pools_Ok _ _ _ _ _ Hps)
    as (xc & xw & xd & xg & xu & (Hxc & Hxw & Hxd & Hxg & Hxu) & -> & -> & -> & -> & ->).
  rewrite Hw in Hxc, Hxw, Hxd, Hxg, Hxu.
  destruct H1 as (p1 & (c1 & c2 & w1 & w2 & w3 & d1 & d2 & gk & u & -> &
                        [??] & (? & ? & ?) & [??] & ? & ?) & _ & ->).
  destruct H2 as (p2 & (c1' & c2' & w1' & w2' & w3' & d1' & d2' & gk' & u' & -> &
                        [??] & (? & ? & ?) & [??] & ? & ?) & _ & ->).
  cbn [slots take drop fmap list_fmap app length].
  repeat split; try reflexivity;
    repeat (apply Forall_cons; split; [eexists; split; [reflexivity|assumption]|]);
    apply Forall_nil_2.
Qed.

(** One attempt of [mate_lineups] on two lineups of the search: fourteen
    random values, and a candidate drawn slot by slot from the object's
    sequences. *)
Lemma mate_attempt_lineup_of (g : GeneticNHL float) l1 l2 (w : world float) :
  self w = g → lineup_of g l1 → lineup_of g l2 →
  ∃ ps qs, drawn_from g qs ∧
    mate_attempt l1 l2 w =
      Ok ((ps, if decide (within_rules qs)
               then (true, (Player <$> qs) ++ [Int (total_salary qs); Float (projection qs)])
               else (false, Player <$> qs)),
          advance 14 w).
Proof.
  intros Hw H1 H2.
  destruct (mate_pools_lineup_of g l1 l2 w Hw H1 H2)
    as (ps & Hps & [Fc Lc] & [Fw Lw] & [Fd Ld] & [Fg Lg] & [Fu Lu]).
  destruct (mate_select_total g ps (advance 5 w)) as (qs & Hqs & Hsel);
    try done; try lia.
  exists ps, qs. split; [done|]. unfold mate_attempt.
  rewrite (bind_Ok_eq _ _ _ _ _ Hps), (bind_Ok_eq _ _ _ _ _ Hsel).
  rewrite (bind_Ok_eq _ _ _ _ _ (check_valid_players qs _)).
  rewrite advance_advance. reflexivity.
Qed.

Lemma mate_lineups_S d l1 l2 (w : world float) pr w1 :
  mate_attempt l1 l2 w = Ok (pr, w1) →
  mate_lineups (S d) l1 l2 w =
    if pr.2.1 then Ok (pr.2.2, w1) else mate_lineups d l1 l2 w1.
Proof.
  intros H. cbn [mate_lineups]. rewrite (bind_Ok_eq _ _ _ _ _ H).
  by destruct pr as [ps [[] l]].
Qed.

(** Mating two lineups of the search: the child is again one, and the
    call read fourteen random values per attempt. *)
Lemma mate_lineups_lineup_of depth (g : GeneticNHL float) l1 l2 (w : world float) l w' :
  self w = g → lineup_of g l1 → lineup_of g l2 →
  mate_lineups depth l1 l2 w = Ok (l, w') →
  lineup_of g l ∧ ∃ k : nat, (k < depth)%nat ∧ w' = advance (14 * S k) w.
Proof.
  intros Hw H1 H2. revert w Hw.
  induction depth as [|d IH]; intros w Hw; [discriminate|].
  destruct (mate_attempt_lineup_of g l1 l2 w Hw H1 H2) as (ps & qs & Hqs & Ha).
  rewrite (mate_lineups_S _ _ _ _ _ _ Ha).
  case_decide as Hr; cbn [fst snd].
  - intros [= <- <-]. split; [by exists qs|]. exists 0%nat. split; [lia|done].
  - intros [Hl (k & Hk & ->)]%IH; [|done]. split; [done|].
    exists (S k). split; [lia|]. rewrite advance_advance. f_equal. lia.
Qed.

Lemma mate_lineups_Err depth (g : GeneticNHL float) l1 l2 (w : world float) e :
  self w = g → lineup_of g l1 → lineup_of g l2 →
  mate_lineups depth l1 l2 w = Err e → e = RecursionError.
Proof.
  intros Hw H1 H2. revert w Hw.
  induction depth as [|d IH]; intros w Hw; [by intros [= <-]|].
  destruct (mate_attempt_lineup_of g l1 l2 w Hw H1 H2) as (ps & qs & Hqs & Ha).
  rewrite (mate_lineups_S _ _ _ _ _ _ Ha).
  case_decide as Hr; cbn [fst snd]; [discriminate|]. by apply IH.
Qed.

(** ** Errors of [mate_lineups] *)

Lemma bind_Err_inv {A C} (m : M float A) (f : A → M float C) w e :
  (m ≫= f) w = Err e →
  m w = Err e ∨ ∃ a w1, m w = Ok (a, w1) ∧ f a w1 = Err e.
Proof.
  unfold mbind, M_bind. destruct (m w) as [[a w1]|e'].
  - intros H. right. by exists a, w1.
  - intros [= ->]. by left.
Qed.

Lemma py_index_Err {A} (l : list A) i e : py_index l i = Err e → e = IndexError.
Proof.
  unfold py_index. cbv zeta. case_decide; [|by intros [= <-]].
  destruct (l !! _); [discriminate|by intros [= <-]].
Qed.

Lemma liftR_Err {A} (r : result A) (w : world float) e : liftR r w = Err e → r = Err e.
Proof. unfold liftR. by destruct r; intros [= ->]. Qed.

Lemma pick_Err role (w : world float) e :
  pick role w = Err e → e = ValueError ∧ role (self w) = [].
Proof.
  rewrite pick_spec. destruct (role (self w)) as [|x l] eqn:E.
  - by intros [= <-].
  - destruct (draw_Some (x :: l) (rand_pos w)) as (a & -> & _); [done|discriminate].
Qed.

Lemma pick_Ok_advance role (w : world float) p w' :
  pick role w = Ok (p, w') → w' = advance 1 w.
Proof. rewrite pick_spec. destruct (draw _ _); [by intros [= _ <-]|discriminate]. Qed.

Lemma mate_pools_Err l1 l2 (w : world float) e :
  mate_pools l1 l2 w = Err e →
  e = IndexError ∨ e = ValueError ∧ ¬ stocked (self w).
Proof.
  unfold mate_pools. intros H.
  repeat match type of H with
  | (liftR _ ≫= _) _ = Err _ =>
      apply bind_Err_inv in H as [H%liftR_Err%py_index_Err|
                                  (? & ? & (? & _ & [= -> ->])%liftR_Ok & H)];
      [by left|]
  | (pick _ ≫= _) _ = Err _ =>
      apply bind_Err_inv in H as [[-> H]%pick_Err|(? & ? & ->%pick_Ok_advance & H)];
      [right; split; [done|]; cbn [self advance] in H; unfold stocked; rewrite H; tauto|]
  end.
  discriminate.
Qed.

Lemma mate_pools_lengths l1 l2 (w : world float) ps w' :
  mate_pools l1 l2 w = Ok (ps, w') → (9 ≤ length l1)%nat ∧ (9 ≤ length l2)%nat.
Proof.
  unfold mate_pools. intros H.
  repeat match type of H with
  | (liftR _ ≫= _) _ = Ok _ =>
      let Hi := fresh "Hi" in
      apply bind_Ok in H as (? & ? & (? & Hi & [= -> ->])%liftR_Ok & H);
      apply py_index_lookup in Hi; [|lia]; apply lookup_lt_Some in Hi
  | (pick _ ≫= _) _ = Ok _ =>
      apply bind_Ok in H as (? & ? & _ & H)
  end.
  change (Z.to_nat 8) with 8%nat in *. lia.
Qed.


(** ** The sort never fails on accepted lineups *)

Lemma rbind_Ok_eq {A C} (x : result A) (f : A → result C) a :
  x = Ok a → x ≫= f = f a.
Proof. by intros ->. Qed.

Lemma insert_desc_total (x : cell float * list (cell float)) l :
  float_keyed x → Forall float_keyed l → ∃ r, insert_desc x l = Ok r.
Proof.
  intros [fx Hx]. induction l as [|y l IH]; intros HF; cbn [insert_desc].
  - by eexists.
  - apply Forall_cons in HF as [[fy Hy] HF]. rewrite Hx, Hy. cbn [key_lt].
    rewrite (rbind_Ok_eq _ _ _ eq_refl).
    destruct (float_ltb fx fy); [|by eexists].
    destruct (IH HF) as [r ->]. by eexists.
Qed.

Lemma sort_desc_total (l : list (cell float * list (cell float))) :
  Forall float_keyed l → ∃ s, sort_desc l = Ok s.
Proof.
  induction l as [|x l IH]; intros HF; cbn [sort_desc]; [by eexists|].
  apply Forall_cons in HF as [Hx HF]. destruct (IH HF) as [s Hs].
  rewrite (rbind_Ok_eq _ _ _ Hs). apply insert_desc_total; [done|].
  by rewrite (sort_desc_perm _ _ Hs).
Qed.

Lemma mapM_with_key_total (ls : list (list (cell float))) :
  Forall validated ls →
  ∃ keyed, mapM with_key ls = Ok keyed ∧ Forall float_keyed keyed.
Proof.
  induction ls as [|x ls IH]; intros HF; cbn [mapM]; [by eexists|].
  apply Forall_cons in HF as [[fx Hx]%validated_score HF].
  destruct (IH HF) as (keyed & -> & Hk).
  unfold with_key. rewrite Hx. eexists. split; [reflexivity|].
  constructor; [by exists fx|done].
Qed.

Lemma sort_by_score_total (ls : list (list (cell float))) :
  Forall validated ls → ∃ sorted, sort_by_score ls = Ok sorted.
Proof.
  intros (keyed & Hk & HF)%mapM_with_key_total. unfold sort_by_score.
  rewrite (rbind_Ok_eq _ _ _ Hk).
  destruct (sort_desc_total keyed HF) as [s Hs].
  rewrite (rbind_Ok_eq _ _ _ Hs). by eexists.
Qed.

Lemma Sorted_take {A} (R : A → A → Prop) (l : list A) n :
  Sorted R l → Sorted R (take n l).
Proof.
  revert n. induction l as [|x l IH]; intros [|n] Hs; cbn; try constructor.
  - apply IH. by apply Sorted_inv in Hs as [? _].
  - apply Sorted_inv in Hs as [_ Hh]. destruct l, n; cbn; constructor.
    by inversion Hh.
Qed.

Lemma Sorted_py_take {A} (R : A → A → Prop) (l : list A) n :
  Sorted R l → Sorted R (py_take n l).
Proof. unfold py_take. case_decide; apply Sorted_take. Qed.

(** ** What the search keeps *)

Lemma lineup_of_config (g g' : GeneticNHL float) l :
  config g = config g' → lineup_of g l → lineup_of g' l.
Proof.
  unfold config. intros [= Hn Hd Hg Hc Hw Hdf Hu].
  intros (ps & (c1 & c2 & w1 & w2 & w3 & d1 & d2 & gk & u & Hps & H) & Hr & ->).
  exists ps. split; [|done]. exists c1, c2, w1, w2, w3, d1, d2, gk, u.
  split; [done|]. by rewrite <- Hg, <- Hc, <- Hw, <- Hdf, <- Hu.
Qed.

Lemma stocked_config (g g' : GeneticNHL float) :
  config g = config g' → stocked g → stocked g'.
Proof.
  unfold config, stocked. intros [= Hn Hd Hg Hc Hw Hdf Hu].
  by rewrite <- Hg, <- Hc, <- Hw, <- Hdf, <- Hu.
Qed.


Lemma ensures_bind {A C} (I : world float → Prop) E (m : M float A) (k : A → M float C)
    (Q : A → world float → Prop) (R : C → world float → Prop) :
  ensures I E m Q → (∀ a, ensures (Q a) E (k a) R) → ensures I E (m ≫= k) R.
Proof.
  intros Hm Hk w HI. specialize (Hm w HI). unfold mbind, M_bind.
  destruct (m w) as [[a w1]|e]; [|done]. by apply Hk.
Qed.

Lemma ensures_ret {A} (I : world float → Prop) E (a : A) (Q : A → world float → Prop) :
  (∀ w, I w → Q a w) → ensures I E (mret a) Q.
Proof. intros H w HI. by apply H. Qed.



Lemma ensures_generate (g : GeneticNHL float) depth :
  stocked g →
  ensures (sane g) (λ e, e = RecursionError) (generate_lineup depth)
          (λ l w, lineup_of g l ∧ sane g w).
Proof.
  intros Hs w [Hc HF].
  destruct (generate_lineup depth w) as [[l w1]|e] eqn:E.
  - split.
    + eapply lineup_of_config; [done|]. by eapply generate_lineup_lineup_of.
    + apply preserves_generate_self in E. unfold sane. by rewrite E.
  - eapply generate_lineup_Err; [|done]. by eapply stocked_config.
Qed.

Lemma ensures_mate (g : GeneticNHL float) depth l1 l2 :
  lineup_of g l1 → lineup_of g l2 →
  ensures (sane g) (λ e, e = RecursionError) (mate_lineups depth l1 l2)
          (λ l w, lineup_of g l ∧ sane g w).
Proof.
  intros H1 H2 w [Hc HF].
  assert (lineup_of (self w) l1) as H1' by by eapply lineup_of_config.
  assert (lineup_of (self w) l2) as H2' by by eapply lineup_of_config.
  destruct (mate_lineups depth l1 l2 w) as [[l w1]|e] eqn:E.
  - split.
    + eapply lineup_of_config; [done|].
      by eapply (mate_lineups_lineup_of depth (self w) l1 l2 w).
    + apply preserves_mate_self in E. unfold sane. by rewrite E.
  - by eapply (mate_lineups_Err depth (self w) l1 l2 w).
Qed.

Lemma ensures_append (g : GeneticNHL float) E l :
  lineup_of g l → ensures (sane g) E (append_lineup l) (λ _ w, sane g w).
Proof.
  intros Hl w [Hc HF]. unfold append_lineup, modify. cbn. split; [done|].
  apply Forall_app. split; [done|]. by constructor.
Qed.

Lemma ensures_replicateM {A} (I : world float → Prop) E (m : M float A) (P : A → Prop) n :
  ensures I E m (λ a w, P a ∧ I w) →
  ensures I E (replicateM n m) (λ xs w, (length xs = n ∧ Forall P xs) ∧ I w).
Proof.
  intros Hm. induction n as [|n IH]; cbn [replicateM].
  - apply ensures_ret. intros w HI. by repeat split.
  - eapply ensures_bind; [exact Hm|]. intros a.
    intros w [Ha HI]. revert w HI.
    change (ensures I E (xs ← replicateM n m; mret (a :: xs))
              (λ xs w, (length xs = S n ∧ Forall P xs) ∧ I w)).
    eapply ensures_bind; [exact IH|]. intros xs w [[Hl HF] HI]. cbn.
    repeat split; [by rewrite Hl|by constructor|done].
Qed.

Lemma ensures_pure {A} (F : Prop) (I : world float → Prop) E (m : M float A)
    (Q : A → world float → Prop) :
  (F → ensures I E m Q) → ensures (λ w, F ∧ I w) E m Q.
Proof. intros H w [HF HI]. by apply H. Qed.

Lemma ensures_liftR_Ok {A C} (I : world float → Prop) E (a : A) (k : A → M float C)
    (Q : C → world float → Prop) :
  ensures I E (k a) Q → ensures I E (liftR (Ok a) ≫= k) Q.
Proof. intros H w HI. exact (H w HI). Qed.

Ltac ensure :=
  repeat first
    [ apply ensures_pure; intros ?
    | apply ensures_liftR_Ok
    | apply ensures_append; assumption
    | eapply ensures_bind;
      [ first [ apply ensures_append; assumption
              | apply ensures_mate; assumption
              | apply ensures_generate; assumption ]
      | intros ? ] ].

(** A round of [get_lineups] on stocked sequences: only the depth of the
    retries can stop it, and what it appends are lineups of the search. *)
Lemma ensures_get_lineups (g : GeneticNHL float) depth :
  stocked g →
  ensures (sane g) (λ e, e = RecursionError) (get_lineups depth) (λ _ w, sane g w).
Proof.
  intros Hs. unfold get_lineups.
  eapply ensures_bind.
  { apply (ensures_replicateM _ _ _ (lineup_of g) 10), ensures_generate, Hs. }
  intros batch. apply ensures_pure. intros [Hlen HF].
  destruct (sort_by_score_total batch) as [sorted Hsort].
  { eapply Forall_impl; [done|]. apply lineup_of_validated. }
  rewrite Hsort. apply ensures_liftR_Ok.
  pose proof (sort_by_score_perm _ _ Hsort) as Hperm.
  rewrite <- Hperm in HF, Hlen.
  destruct sorted as [|b1 [|b2 [|b3 rest]]]; try discriminate.
  apply Forall_cons in HF as [H1 HF]. apply Forall_cons in HF as [H2 HF].
  apply Forall_cons in HF as [H3 _].
  change 1 with (Z.of_nat 1). change 2 with (Z.of_nat 2). change 0 with (Z.of_nat 0).
  rewrite !py_index_nonneg. cbn [lookup list_lookup].
  ensure.
Qed.

Lemma ensures_sort_lineups (g : GeneticNHL float) E :
  ensures (sane g) E sort_lineups
          (λ _ w, sane g w ∧ Sorted not_below (lineups (self w))).
Proof.
  intros w [Hc HF]. unfold sort_lineups.
  rewrite (bind_Ok_eq _ _ _ _ _ (eq_refl : gets lineups w = Ok (lineups (self w), w))).
  assert (Forall validated (lineups (self w))) as HV.
  { eapply Forall_impl; [done|]. apply lineup_of_validated. }
  destruct (sort_by_score_total _ HV) as [sorted Hsort].
  assert (Forall (lineup_of g) sorted) as HF'
    by by rewrite (sort_by_score_perm _ _ Hsort).
  rewrite Hsort. cbn. split; [by split|]. by eapply sort_by_score_sorted.
Qed.

Lemma ensures_trim_lineups (g : GeneticNHL float) E :
  ensures (λ w, sane g w ∧ Sorted not_below (lineups (self w))) E trim_lineups
          (λ _ w, sane g w ∧ Sorted not_below (lineups (self w))).
Proof.
  intros w [[Hc HF] Hs]. unfold trim_lineups, modify. cbn. split; [split; [done|]|].
  - unfold py_take. case_decide; by apply Forall_take.
  - by apply Sorted_py_take.
Qed.

Lemma ensures_round_body (g : GeneticNHL float) depth :
  stocked g →
  ensures (sane g) (λ e, e = RecursionError) (round_body depth)
          (λ _ w, sane g w ∧ Sorted not_below (lineups (self w))).
Proof.
  intros Hs. unfold round_body.
  eapply ensures_bind; [by apply ensures_get_lineups|]. intros [].
  eapply ensures_bind; [apply ensures_sort_lineups|]. intros [].
  apply ensures_trim_lineups.
Qed.


Lemma ensures_run_loop (g : GeneticNHL float) (P : list (list (cell float)) → Prop)
    fuel depth runtime :
  stocked g → (∀ ls, Sorted not_below ls → P ls) →
  ensures (λ w, sane g w ∧ P (lineups (self w)))
          (λ e, e = RecursionError ∨ e = OutOfFuel)
          (run_loop fuel depth runtime)
          (λ _ w, sane g w ∧ P (lineups (self w))).
Proof.
  intros Hs HP. induction fuel as [|f IH]; cbn [run_loop].
  - intros w _. by right.
  - intros w [Hw Hsorted]. unfold mbind at 1, M_bind at 1, time_time.
    case_decide; [|done].
    pose proof (ensures_round_body g depth Hs) as Hr.
    match goal with |- context [(_ ≫= _) ?w1] => specialize (Hr w1 Hw) end.
    unfold mbind, M_bind.
    destruct (round_body depth _) as [[[] w2]|e]; [|by left].
    apply IH. destruct Hr as [? ?%HP]. by split.
Qed.

Lemma ensures_run (g : GeneticNHL float) (P : list (list (cell float)) → Prop)
    fuel depth :
  stocked g → (∀ ls, Sorted not_below ls → P ls) →
  ensures (λ w, sane g w ∧ P (lineups (self w)))
          (λ e, e = RecursionError ∨ e = OutOfFuel)
          (run fuel depth)
          (λ _ w, sane g w ∧ P (lineups (self w))).
Proof.
  intros Hs HP w Hw. unfold run, mbind, M_bind, time_time, gets.
  by apply ensures_run_loop.
Qed.

Lemma replicateM_S_Ok {A} (m : M float A) n w xs w' :
  replicateM (S n) m w = Ok (xs, w') → ∃ a w1, m w = Ok (a, w1).
Proof. cbn [replicateM]. intros (a & w1 & H & _)%bind_Ok. by exists a, w1. Qed.

Lemma get_lineups_stocked depth (w w' : world float) :
  get_lineups depth w = Ok (tt, w') → stocked (self w).
Proof.
  unfold get_lineups. intros (batch & w1 & H & _)%bind_Ok.
  apply replicateM_S_Ok in H as (l & w2 & H).
  eapply lineup_of_stocked, generate_lineup_lineup_of, H.
Qed.

Lemma round_body_stocked depth (w w' : world float) :
  round_body depth w = Ok (tt, w') → stocked (self w).
Proof.
  unfold round_body. intros ([] & w1 & H & _)%bind_Ok.
  by eapply get_lineups_stocked.
Qed.

(** The loop of [run], when it returns: the population stays made of
    lineups of the search, and whatever a sort establishes holds of it. *)
Lemma run_loop_keeps (g : GeneticNHL float) (P : list (list (cell float)) → Prop)
    fuel depth runtime (w w' : world float) :
  (∀ ls, Sorted not_below ls → P ls) →
  sane g w → P (lineups (self w)) →
  run_loop fuel depth runtime w = Ok (tt, w') →
  sane g w' ∧ P (lineups (self w')).
Proof.
  intros HP. revert w. induction fuel as [|f IH]; intros w Hw HPw; [discriminate|].
  cbn [run_loop]. unfold mbind at 1, M_bind at 1, time_time.
  case_decide; [|by intros [= <-]].
  intros ([] & w2 & Hr & Hl)%bind_Ok.
  assert (stocked g) as Hs.
  { eapply stocked_config; [apply Hw|]. by apply round_body_stocked in Hr. }
  match type of Hr with
  | round_body _ ?w1 = _ => pose proof (ensures_round_body g depth Hs w1 Hw) as Hpost
  end.
  rewrite Hr in Hpost. destruct Hpost as [? ?%HP]. by eapply IH.
Qed.

Lemma run_keeps (g : GeneticNHL float) (P : list (list (cell float)) → Prop)
    fuel depth (w w' : world float) :
  (∀ ls, Sorted not_below ls → P ls) →
  sane g w → P (lineups (self w)) →
  run fuel depth w = Ok (tt, w') →
  sane g w' ∧ P (lineups (self w')).
Proof.
  intros HP Hw HPw. unfold run, mbind, M_bind, time_time, gets.
  by apply run_loop_keeps.
Qed.

Lemma run_loop_config fuel depth runtime (w w' : world float) :
  run_loop fuel depth runtime w = Ok (tt, w') →
  config (self w') = config (self w) ∧ (clock_pos w < clock_pos w')%nat.
Proof.
  revert w. induction fuel as [|f IH]; intros w; [discriminate|].
  cbn [run_loop]. unfold mbind at 1, M_bind at 1, time_time.
  case_decide; [|intros [= <-]; cbn; split; [done|lia]].
  intros ([] & w2 & Hr & Hl)%bind_Ok.
  apply IH in Hl as (-> & Hlt).
  apply round_body_Ok in Hr as (added & sorted & _ & _ & _ & -> & Hc).
  cbn [clock_pos] in Hc. split; [reflexivity|lia].
Qed.


(** ** More on [check_valid] *)

Lemma mapM_as_player_Err (l : list (cell float)) e :
  mapM as_player l = Err e → e = TypeError ∧ ∃ c, c ∈ l ∧ ∀ p, c ≠ Player p.
Proof.
  induction l as [|c l IH]; cbn [mapM]; [discriminate|].
  destruct c as [p|n|x]; cbn.
  - destruct (mapM as_player l) as [ps|e'] eqn:E; cbn; [discriminate|].
    intros [= <-]. destruct (IH eq_refl) as (-> & c & Hc & Hn).
    split; [done|]. exists c. split; [by right|done].
  - intros [= <-]. split; [done|]. exists (Int n). split; [left|done].
  - intros [= <-]. split; [done|]. exists (Float x). split; [left|done].
Qed.

Lemma check_valid_Err lineup (w : world float) e :
  check_valid lineup w = Err e → e = TypeError ∧ ∃ c, c ∈ lineup ∧ ∀ p, c ≠ Player p.
Proof.
  unfold check_valid. intros [H|(ps & w1 & _ & H)]%bind_Err_inv.
  - by apply liftR_Err, mapM_as_player_Err in H.
  - by case_decide.
Qed.

Lemma remove_dups_length_le {A} `{EqDecision A} (l : list A) :
  (length (remove_dups l) ≤ length l)%nat.
Proof. induction l as [|x l IH]; cbn; [done|]. case_decide; cbn; lia. Qed.

Lemma remove_dups_length_NoDup {A} `{EqDecision A} (l : list A) :
  length (remove_dups l) = length l → NoDup l.
Proof.
  induction l as [|x l IH]; cbn; [constructor|].
  pose proof (remove_dups_length_le l). case_decide as Hx; cbn; [lia|].
  intros [= Hl]. constructor; [done|by apply IH].
Qed.


Lemma within_rules_players (ps : list (player float)) :
  within_rules ps →
  (9 ≤ length ps)%nat ∧ (length ps = 9%nat → NoDup (name <$> ps) ∧ NoDup ps).
Proof.
  intros (_ & _ & Hn). unfold num_players, distinct in Hn.
  pose proof (remove_dups_length_le (name <$> ps)) as Hle.
  rewrite Hn, length_fmap in Hle. split; [done|]. intros Hl.
  assert (NoDup (name <$> ps)) as Hnd.
  { apply remove_dups_length_NoDup. by rewrite Hn, length_fmap. }
  split; [done|]. by eapply NoDup_fmap_1.
Qed.


(** ** More on [load_roster] *)

Lemma rbind_Err_inv {A C} (x : result A) (f : A → result C) e :
  x ≫= f = Err e → x = Err e ∨ ∃ a, x = Ok a ∧ f a = Err e.
Proof. destruct x as [a|e']; cbn; [right; by exists a|intros [= ->]; by left]. Qed.

Lemma of_option_Err {A} e0 (o : option A) e : of_option e0 o = Err e → e = e0.
Proof. destruct o; [discriminate|by intros [= <-]]. Qed.

Lemma first_char_Err s e : first_char s = Err e → e = IndexError.
Proof. destruct s; [by intros [= <-]|discriminate]. Qed.

Lemma read_player_Err row e :
  read_player row = Err e → e = IndexError ∨ e = ValueError.
Proof.
  unfold read_player. intros H.
  repeat match type of H with
  | py_index _ _ ≫= _ = Err _ =>
      apply rbind_Err_inv in H as [H%py_index_Err|(? & _ & H)]; [by left|]
  | first_char _ ≫= _ = Err _ =>
      apply rbind_Err_inv in H as [H%first_char_Err|(? & _ & H)]; [by left|]
  | of_option _ _ ≫= _ = Err _ =>
      apply rbind_Err_inv in H as [H%of_option_Err|(? & _ & H)]; [by right|]
  end.
  discriminate.
Qed.

Lemma read_player_Ok row p :
  read_player row = Ok p →
  (19 ≤ length row)%nat ∧
  row !! 11%nat = Some (name p) ∧ row !! 17%nat = Some (teamAbbrev p) ∧
  (∃ descr, row !! 14%nat = Some (String (position p) descr)) ∧
  (∃ s, row !! 15%nat = Some s ∧ py_int s = Some (salary p)) ∧
  (∃ s, row !! 18%nat = Some s ∧ py_float s = Some (avePoints p)).
Proof.
  unfold read_player.
  intros (nm & Hnm & (descr & Hd & (pos & Hpos & (ss & Hss & (sal & Hsal &
          (team & Hteam & (as_ & Has & (ave & Have & [= <-])%rbind_Ok)%rbind_Ok)
          %rbind_Ok)%rbind_Ok)%rbind_Ok)%rbind_Ok)%rbind_Ok)%rbind_Ok.
  apply py_index_lookup in Hnm, Hd, Hss, Hteam, Has; try lia.
  change (Z.to_nat 11) with 11%nat in Hnm. change (Z.to_nat 14) with 14%nat in Hd.
  change (Z.to_nat 15) with 15%nat in Hss. change (Z.to_nat 17) with 17%nat in Hteam.
  change (Z.to_nat 18) with 18%nat in Has.
  pose proof (lookup_lt_Some _ _ _ Has). cbn [name teamAbbrev position salary avePoints].
  split; [lia|]. split; [done|]. split; [done|].
  destruct descr as [|c rest]; [discriminate|]. injection Hpos as <-.
  split; [by exists rest|]. split.
  - exists ss. split; [done|]. by destruct (py_int ss); simplify_eq/=.
  - exists as_. split; [done|]. by destruct (py_float as_); simplify_eq/=.
Qed.

Lemma load_rows_Err rows (g : GeneticNHL float) e :
  load_rows rows g = Err e → ∃ row, row ∈ rows ∧ read_player row = Err e.
Proof.
  revert g. induction rows as [|row rows IH]; intros g; cbn [load_rows]; [discriminate|].
  intros [H|(p & _ & (r & Hr & He)%IH)]%rbind_Err_inv.
  - exists row. split; [left|done].
  - exists r. split; [by right|done].
Qed.

Lemma load_roster_Err rows (w : world float) e :
  load_roster rows w = Err e →
  e = StopIteration ∧ (length rows < 8)%nat ∨
  (e = IndexError ∨ e = ValueError) ∧ (8 ≤ length rows)%nat ∧
    ∃ row, row ∈ drop 8 rows ∧ read_player row = Err e.
Proof.
  unfold load_roster, skip_header. case_decide as Hl.
  - intros [= <-]. by left.
  - unfold mbind at 1, M_bind at 1, liftR at 1. unfold mbind at 1, M_bind at 1, gets.
    intros [H%liftR_Err|(? & ? & _ & H)]%bind_Err_inv; [|discriminate].
    right. apply load_rows_Err in H as (row & Hrow & He).
    split; [by eapply read_player_Err|]. split; [lia|]. by exists row.
Qed.

Lemma mapM_read_player_Ok rows (ps : list (player float)) :
  mapM read_player rows = Ok ps → Forall2 (λ row p, read_player row = Ok p) rows ps.
Proof.
  revert ps. induction rows as [|row rows IH]; intros ps; cbn [mapM].
  - intros [= <-]. constructor.
  - intros (p & Hp & (qs & Hqs & [= <-])%rbind_Ok)%rbind_Ok.
    constructor; [done|by apply IH].
Qed.

Lemma Forall_bucket c (ps : list (player float)) :
  Forall (λ p, position p = c ∧ float_nonzero (avePoints p) = true) (bucket c ps).
Proof.
  apply Forall_forall. intros p [Hp [Ha _]%list_elem_of_filter]%list_elem_of_filter.
  done.
Qed.

Lemma Forall_non_goalies (ps : list (player float)) :
  Forall (λ p, position p ≠ "G"%char ∧ float_nonzero (avePoints p) = true)
         (non_goalies ps).
Proof.
  apply Forall_forall. intros p [Hp [Ha _]%list_elem_of_filter]%list_elem_of_filter.
  done.
Qed.

Lemma load_rows_sorted_pools rows (g g' : GeneticNHL float) :
  load_rows rows g = Ok g' → sorted_pools g → sorted_pools g'.
Proof.
  intros (ps & _ & HG & HC & HW & HD & HU & _)%load_rows_Ok
         (SG & SC & SW & SD & SU & SA).
  unfold all_players in SA. rewrite !Forall_app in SA.
  destruct SA as (AC & AW & AD & AG & AU).
  pose proof (Forall_bucket "G" ps) as BG. pose proof (Forall_bucket "C" ps) as BC.
  pose proof (Forall_bucket "W" ps) as BW. pose proof (Forall_bucket "D" ps) as BD.
  pose proof (Forall_non_goalies ps) as BU.
  unfold sorted_pools, all_players. rewrite HG, HC, HW, HD, HU, !Forall_app.
  repeat split; try assumption;
    (eapply Forall_impl; [eassumption|]); by intros p [? ?].
Qed.

Lemma load_roster_Ok rows (w w' : world float) :
  load_roster rows w = Ok (tt, w') →
  (8 ≤ length rows)%nat ∧ load_rows (drop 8 rows) (self w) = Ok (self w') ∧
  rand_pos w' = rand_pos w ∧ clock_pos w' = clock_pos w.
Proof.
  unfold load_roster, skip_header. case_decide as Hl; [discriminate|].
  unfold mbind at 1, M_bind at 1, liftR at 1. unfold mbind at 1, M_bind at 1, gets.
  intros (g' & w1 & (? & Hg & [= <- <-])%liftR_Ok & [= <-])%bind_Ok.
  split; [lia|]. by split.
Qed.

Lemma lineup_of_positioned (g : GeneticNHL float) l :
  sorted_pools g → lineup_of g l → positioned l.
Proof.
  intros (SG & SC & SW & SD & SU & _).
  rewrite Forall_forall in SG, SC, SW, SD, SU.
  intros (ps & (c1 & c2 & w1 & w2 & w3 & d1 & d2 & gk & u & -> &
               [??] & (? & ? & ?) & [??] & ? & ?) & _ & ->).
  exists [c1; c2; w1; w2; w3; d1; d2; gk], u. split; [reflexivity|].
  split; [|by apply SU]. unfold slot_letters. cbn.
  by rewrite (SC c1), (SC c2), (SW w1), (SW w2), (SW w3), (SD d1), (SD d2), (SG gk).
Qed.

Lemma sorted_pools_init n d : sorted_pools (init n d : GeneticNHL float).
Proof. unfold sorted_pools, all_players. cbn. repeat split; constructor. Qed.


(** ** More on [save_file] *)

Lemma range_in_bounds (n len : Z) :
  Forall (λ i, i + 1 < len) (seqZ 0 (n - 1)) ↔ ¬ (2 ≤ n ∧ len < n).
Proof.
  rewrite Forall_forall. split.
  - intros H [Hn Hl]. specialize (H (n - 2)). rewrite elem_of_seqZ in H. lia.
  - intros H i [? ?]%elem_of_seqZ. lia.
Qed.


Lemma row_at_table (g : GeneticNHL float) (i : Z) :
  0 ≤ i < Z.of_nat (length (lineups g)) →
  ∃ l, l ∈ lineups g ∧ row_at (table g) i = to_field <$> l.
Proof.
  intros Hi. unfold row_at, table.
  destruct (lookup_lt_is_Some_2 (lineups g) (Z.to_nat i)) as [l Hl]; [lia|].
  exists l. split; [by eapply list_elem_of_lookup_2|].
  change (map (map to_field) (lineups g)) with (fmap (M:=list) (map to_field) (lineups g)).
  by rewrite list_lookup_fmap, Hl.
Qed.

(** The rows that [save_file] writes after the headers are rows of the
    population, and there are fewer of them than [num_lineups]. *)
Lemma save_file_Ok (w w' : world float) full upload :
  save_file w = Ok ((full, upload), w') →
  ∃ out,
    full = header :: out ∧ upload = header_for_upload :: map (py_take 9) out ∧
    (Z.of_nat (length out) ≤ Z.max 0 (num_lineups (self w) - 1)) ∧
    Forall (λ r, ∃ l, l ∈ lineups (self w) ∧ r = to_field <$> l) out.
Proof.
  rewrite save_file_spec. cbv zeta. case_decide as H; [|discriminate].
  intros [= <- <- <-]. eexists. split; [reflexivity|]. split; [reflexivity|].
  split.
  - rewrite length_fmap.
    pose proof (length_filter (λ i, differs (table (self w)) i = true)
                  (seqZ 0 (num_lineups (self w) - 1))) as Hle.
    rewrite length_seqZ in Hle. lia.
  - apply Forall_fmap, Forall_forall. intros i [_ Hi]%list_elem_of_filter.
    rewrite Forall_forall in H. specialize (H i Hi). apply elem_of_seqZ in Hi.
    unfold table in H. rewrite length_map in H.
    apply (row_at_table (self w) i). lia.
Qed.

Lemma validated_row (l : list (cell float)) :
  validated l → length l = 11%nat →
  ∃ names sal proj,
    length names = 9%nat ∧ NoDup names ∧
    to_field <$> l = (FStr <$> names) ++ [FInt sal; FFloat proj] ∧
    py_take 9 (to_field <$> l) = FStr <$> names.
Proof.
  intros (ps & -> & Hr) Hl. rewrite length_app, length_fmap in Hl. cbn in Hl.
  assert (length ps = 9%nat) as Hps by lia.
  destruct (within_rules_players ps Hr) as [_ [Hnd _]]; [done|].
  exists (name <$> ps), (total_salary ps), (projection ps).
  rewrite length_fmap. split; [done|]. split; [done|].
  assert (to_field <$> (Player <$> ps) ++ [Int (total_salary ps); Float (projection ps)]
          = (FStr <$> (name <$> ps)) ++ [FInt (total_salary ps); FFloat (projection ps)])
    as ->.
  { rewrite fmap_app. f_equal. rewrite <- !list_fmap_compose. done. }
  split; [done|]. unfold py_take. rewrite decide_True by lia.
  change (Z.to_nat 9) with 9%nat.
  rewrite take_app_length'; [done|]. by rewrite !length_fmap.
Qed.

Lemma stocked_dec (g : GeneticNHL float) : stocked g ∨ ¬ stocked g.
Proof.
  unfold stocked.
  destruct (centers g), (wingers g), (defencemen g), (goalies g), (utils g);
    first [by left | right; intros (? & ? & ? & ? & ?); done].
Qed.


(** * Further properties of the code *)

(** ** [generate_lineup] *)

(** X1: [generate_lineup] reads random values nine at a time, one per
    slot, and returns the first block of nine whose players pass the rules
    of [check_valid], extended with their salary and projection: it returns
    exactly when one of the first [depth] blocks passes, and has then read
    nine values for that block and for each rejected block before it. *)
Theorem generate_lineup_first_accepted depth (w w' : world float) l :
  generate_lineup depth w = Ok (l, w') ↔
  ∃ (k : nat) ps,
    (k < depth)%nat ∧
    candidate (self w) (9 * k + rand_pos w) = Some ps ∧
    within_rules ps ∧
    (∀ j, (j < k)%nat →
       ∃ qs, candidate (self w) (9 * j + rand_pos w) = Some qs ∧ ¬ within_rules qs) ∧
    l = (Player <$> ps) ++ [Int (total_salary ps); Float (projection ps)] ∧
    w' = advance (9 * S k) w.
Proof.
  split.
  - apply generate_lineup_Ok.
  - intros (k & ps & Hk & Hc & Hr & Hbefore & -> & ->).
    by apply generate_lineup_first.
Qed.

(** X2: with one of the five role sequences empty, as on an object whose
    roster was never loaded, a call of [generate_lineup] that the
    interpreter lets start raises [ValueError]: [random.randint(0, -1)] has
    an empty range. *)
Theorem generate_lineup_empty_sequence depth (w : world float) :
  ¬ stocked (self w) → generate_lineup (S depth) w = Err ValueError.
Proof.
  intros Hs. rewrite generate_lineup_S.
  by rewrite (candidate_None (self w) (rand_pos w) Hs).
Qed.

(** X3: when the players of the five sequences come from at most two
    teams, no candidate has three teams, every attempt is rejected, and
    [generate_lineup] ends with [RecursionError] whatever the depth the
    interpreter allows: it never returns. *)
Theorem generate_lineup_two_teams depth (w : world float) t1 t2 :
  stocked (self w) →
  Forall (λ p, teamAbbrev p = t1 ∨ teamAbbrev p = t2) (all_players (self w)) →
  generate_lineup depth w = Err RecursionError.
Proof.
  intros Hs Ht. apply generate_lineup_hopeless; [done|].
  intros ps Hd (_ & H3 & _).
  assert (num_teams ps ≤ 2)%nat; [|lia].
  apply (num_teams_two ps t1 t2). intros p Hp.
  rewrite Forall_forall in Ht. apply Ht. by eapply drawn_from_all.
Qed.

(** X4: the only errors of [generate_lineup] are [RecursionError], when
    the sequences are stocked or no call is allowed at all, and
    [ValueError], when a sequence is empty. *)
Theorem generate_lineup_errors depth (w : world float) e :
  generate_lineup depth w = Err e →
  e = RecursionError ∧ (stocked (self w) ∨ depth = 0%nat) ∨
  e = ValueError ∧ ¬ stocked (self w) ∧ depth ≠ 0%nat.
Proof.
  intros H. destruct (stocked_dec (self w)) as [Hs|Hs].
  - left. split; [by eapply generate_lineup_Err|by left].
  - destruct depth as [|d].
    + left. injection H as <-. split; [done|by right].
    + right. rewrite generate_lineup_S, (candidate_None _ _ Hs) in H.
      injection H as <-. done.
Qed.

(** ** [grab_players] *)

(** X5: [grab_players(position, n)] succeeds exactly when the list holds
    at least [n] cells.  It then reads [n] random values, returns [n]
    cells and leaves the list [n] cells shorter, the cells returned and
    the cells left being those of the list; on a shorter list it raises
    [ValueError], from [random.randint] on the emptied list. *)
Theorem grab_players_draws pool n (w : world float) :
  ((n ≤ length pool)%nat →
   ∃ picked rest,
     grab_players pool n w = Ok ((picked, rest), advance n w) ∧
     length picked = n ∧ length rest = (length pool - n)%nat ∧
     picked ++ rest ≡ₚ pool) ∧
  ((length pool < n)%nat → grab_players pool n w = Err ValueError).
Proof.
  split.
  - apply grab_players_enough.
  - apply grab_players_short.
Qed.

(** ** [mate_lineups] *)

(** X6: with the sequences stocked, [mate_lineups] on a parent of fewer
    than nine cells raises [IndexError] in its first attempt. *)
Theorem mate_lineups_short_parent depth l1 l2 (w : world float) :
  stocked (self w) → (length l1 < 9 ∨ length l2 < 9)%nat →
  mate_lineups (S depth) l1 l2 w = Err IndexError.
Proof.
  intros Hs Hl. cbn [mate_lineups]. apply bind_Err. unfold mate_attempt.
  apply bind_Err. destruct (mate_pools l1 l2 w) as [[ps w1]|e] eqn:E.
  - apply mate_pools_lengths in E. lia.
  - by apply mate_pools_Err in E as [->|[_ ?]].
Qed.

(** X7: crossover keeps the roles of the slots.  When both parents are
    lineups whose nine slots were filled from the object's sequences of
    their roles, so is the child, and the call read fourteen random values
    for each of its attempts: five for the extra players, nine for the
    selection. *)
Theorem mate_lineups_child_slots depth l1 l2 (w w' : world float) child :
  lineup_of (self w) l1 → lineup_of (self w) l2 →
  mate_lineups depth l1 l2 w = Ok (child, w') →
  lineup_of (self w) child ∧
  ∃ k : nat, (k < depth)%nat ∧ w' = advance (14 * S k) w.
Proof.
  intros H1 H2 H.
  by apply (mate_lineups_lineup_of depth (self w) l1 l2 w child w').
Qed.

(** X8: on two such parents the only error of [mate_lineups] is
    [RecursionError]: no index is out of range, no list runs empty and
    every candidate is made of players. *)
Theorem mate_lineups_only_recursion_error depth l1 l2 (w : world float) e :
  lineup_of (self w) l1 → lineup_of (self w) l2 →
  mate_lineups depth l1 l2 w = Err e → e = RecursionError.
Proof.
  intros H1 H2. revert w H1 H2.
  induction depth as [|d IH]; intros w H1 H2; [by intros [= <-]|].
  destruct (mate_attempt_lineup_of (self w) l1 l2 w eq_refl H1 H2)
    as (ps & qs & Hqs & Ha).
  rewrite (mate_lineups_S _ _ _ _ _ _ Ha).
  case_decide as Hr; cbn [fst snd]; [discriminate|]. by apply IH.
Qed.

(** ** [check_valid] *)

(** X9: [check_valid] raises exactly when its argument holds a cell that
    is not a player, and the error is then a [TypeError]. *)
Theorem check_valid_raises_iff lineup (w : world float) e :
  check_valid lineup w = Err e ↔
  e = TypeError ∧ ∃ c, c ∈ lineup ∧ ∀ p, c ≠ Player p.
Proof.
  split.
  - apply check_valid_Err.
  - intros [-> H]. by apply check_valid_number.
Qed.

(** X10: an accepted candidate has at least nine players, and one of
    exactly nine has no name twice, hence no player twice. *)
Theorem check_valid_accepted_distinct lineup out (w w' : world float) :
  check_valid lineup w = Ok ((true, out), w') →
  ∃ ps, lineup = Player <$> ps ∧ (9 ≤ length ps)%nat ∧
        (length ps = 9%nat → NoDup (name <$> ps) ∧ NoDup ps).
Proof.
  intros (ps & -> & _ & Hr)%check_valid_Ok. exists ps. split; [done|].
  case_decide as Hin; [|discriminate]. by apply within_rules_players.
Qed.

(** ** Sorting by score *)


(** ** [run] *)

(** X12: [run] changes nothing of the object but its population: the
    five sequences, [num_lineups] and [duration] are those it found. *)
Theorem run_config_unchanged fuel depth (w w' : world float) :
  run fuel depth w = Ok (tt, w') → config (self w') = config (self w).
Proof.
  unfold run.
  intros (t & w1 & [= <- <-] & (d & ? & [= -> ->]%gets_Ok & H)%bind_Ok)%bind_Ok.
  by apply run_loop_config in H as [-> _].
Qed.

(** X13: [run] keeps the population made of lineups whose nine slots
    were filled from the sequences of their roles and pass the rules. *)
Theorem run_population_lineups fuel depth (w w' : world float) :
  Forall (lineup_of (self w)) (lineups (self w)) →
  run fuel depth w = Ok (tt, w') →
  Forall (lineup_of (self w)) (lineups (self w')).
Proof.
  intros HF H.
  destruct (run_keeps (self w) (λ _, True) fuel depth w w') as [[_ ?] _]; try done.
Qed.


(** X15: with the sequences stocked, [run] fails only when a retry
    exhausts the recursion depth (or, in this model, when the loop uses up
    its fuel): sorting, indexing, crossover and validation raise nothing. *)
Theorem run_errors fuel depth (w : world float) e :
  stocked (self w) →
  Forall (lineup_of (self w)) (lineups (self w)) →
  run fuel depth w = Err e → e = RecursionError ∨ e = OutOfFuel.
Proof.
  intros Hs HF H.
  pose proof (ensures_run (self w) (λ _, True) fuel depth Hs (λ _ _, I) w) as He.
  rewrite H in He. apply He. by repeat split.
Qed.

(** X16: [run] on an object whose sequences are not all stocked, with
    time left at the first test of the loop, raises [ValueError] from the
    first [generate_lineup]. *)
Theorem run_before_load_roster fuel depth (w : world float) :
  ¬ stocked (self w) →
  clock (S (clock_pos w)) < clock (clock_pos w) + duration (self w) →
  run (S fuel) (S depth) w = Err ValueError.
Proof.
  intros Hs Ht. unfold run, mbind at 1 2, M_bind at 1 2, time_time, gets.
  cbn [run_loop self clock_pos]. unfold mbind at 1, M_bind at 1, time_time.
  cbn [self clock_pos]. rewrite decide_True by done.
  apply bind_Err. unfold round_body. apply bind_Err.
  unfold get_lineups. apply bind_Err. cbn [replicateM]. apply bind_Err.
  rewrite generate_lineup_S. cbn [self]. by rewrite candidate_None.
Qed.

(** ** [load_roster] *)

(** X17: [load_roster] raises [StopIteration] exactly when the file has
    fewer than 8 rows; any other error is the [IndexError] or the
    [ValueError] raised while reading one of the rows after the eighth. *)
Theorem load_roster_errors rows (w : world float) :
  (load_roster rows w = Err StopIteration ↔ (length rows < 8)%nat) ∧
  (∀ e, load_roster rows w = Err e → e ≠ StopIteration →
     (e = IndexError ∨ e = ValueError) ∧
     ∃ row, row ∈ drop 8 rows ∧ read_player row = Err e).
Proof.
  split; [split|].
  - intros [[_ ?]|([?|?] & _)]%load_roster_Err; done.
  - intros Hl. unfold load_roster, skip_header. by rewrite decide_True.
  - intros e [[-> _]|(He & _ & Hrow)]%load_roster_Err Hne; done.
Qed.

(** X18: when [load_roster] returns, every row after the eighth has at
    least 19 columns, a role descriptor that is not empty, a salary that
    [int] reads and an average that [float] reads; this includes the rows
    of the players that are left out for an average of zero.  The
    population and the cursors of the environment are untouched. *)
Theorem load_roster_row_format rows (w w' : world float) :
  load_roster rows w = Ok (tt, w') →
  Forall (λ row, (19 ≤ length row)%nat ∧
                 (∃ c descr, row !! 14%nat = Some (String c descr)) ∧
                 (∃ s n, row !! 15%nat = Some s ∧ py_int s = Some n) ∧
                 (∃ s x, row !! 18%nat = Some s ∧ py_float s = Some x))
         (drop 8 rows) ∧
  lineups (self w') = lineups (self w) ∧
  rand_pos w' = rand_pos w ∧ clock_pos w' = clock_pos w.
Proof.
  intros (_ & Hrows & Hr & Hc)%load_roster_Ok.
  apply load_rows_Ok in Hrows as (ps & Hps & _ & _ & _ & _ & _ & Hl & _).
  split; [|done].
  apply mapM_read_player_Ok in Hps.
  induction Hps as [|row p rows' ps' Hp _ IH]; constructor; [|done].
  apply read_player_Ok in Hp as (? & _ & _ & [d ?] & (s & ? & ?) & (s' & ? & ?)).
  split; [done|]. split; [by exists (position p), d|].
  split; [by exists s, (salary p)|by exists s', (avePoints p)].
Qed.

(** X19: the docstring of [check_valid], every lineup already satisfies
    the positional constraints when created.  On an object built by
    [__init__], loaded by [load_roster] and evolved by [run], every lineup
    of the population holds two centers, three wingers, two defencemen and
    a goalie, in this order, then a player that is not a goalie. *)
Theorem loaded_run_positions rows fuel depth n d (w0 w w' : world float) :
  self w0 = init n d →
  load_roster rows w0 = Ok (tt, w) →
  run fuel depth w = Ok (tt, w') →
  Forall positioned (lineups (self w')).
Proof.
  intros H0 (_ & Hrows & _)%load_roster_Ok Hrun.
  assert (sorted_pools (self w)) as Hsp.
  { eapply load_rows_sorted_pools; [done|]. rewrite H0. apply sorted_pools_init. }
  assert (lineups (self w) = []) as Hnil.
  { apply load_rows_Ok in Hrows as (? & _ & _ & _ & _ & _ & _ & -> & _).
    by rewrite H0. }
  destruct (run_keeps (self w) (λ _, True) fuel depth w w') as [[_ HF] _]; try done.
  { split; [done|]. rewrite Hnil. constructor. }
  eapply Forall_impl; [done|]. intros l. by apply lineup_of_positioned.
Qed.

(** ** [save_file] *)

(** X20: [save_file] raises exactly when [num_lineups] is at least 2 and
    the population holds fewer than [num_lineups] lineups, and the error
    is then an [IndexError]; in every other case it writes its two
    files. *)
Theorem save_file_raises_iff (w : world float) e :
  save_file w = Err e ↔
  e = IndexError ∧ 2 ≤ num_lineups (self w) ∧
  Z.of_nat (length (lineups (self w))) < num_lineups (self w).
Proof.
  rewrite save_file_spec. cbv zeta. unfold table. rewrite length_map.
  case_decide as H; rewrite range_in_bounds in H.
  - split; [discriminate|]. intros (_ & ? & ?). lia.
  - split.
    + intros [= <-]. split; [done|]. lia.
    + by intros (-> & _).
Qed.

(** X21: on a population of lineups of the search, each row that
    [save_file] writes under the header of [lineups.csv] is nine distinct
    names, then a salary and a projection, as the header announces; the
    row at the same place of [lineups_for_upload.csv] is its nine names;
    and fewer rows are written than [num_lineups]. *)
Theorem save_file_row_shape (g : GeneticNHL float) (w w' : world float) full upload :
  Forall (lineup_of g) (lineups (self w)) →
  save_file w = Ok ((full, upload), w') →
  ∃ out,
    full = header :: out ∧
    upload = header_for_upload :: (py_take 9 <$> out) ∧
    Z.of_nat (length out) ≤ Z.max 0 (num_lineups (self w) - 1) ∧
    Forall (λ r, ∃ names sal proj,
              length names = 9%nat ∧ NoDup names ∧
              r = (FStr <$> names) ++ [FInt sal; FFloat proj] ∧
              py_take 9 r = FStr <$> names) out.
Proof.
  intros HF (out & -> & -> & Hlen & Hout)%save_file_Ok.
  exists out. split; [done|]. split; [done|]. split; [done|].
  eapply Forall_impl; [done|]. intros r (l & Hl & ->).
  rewrite Forall_forall in HF. specialize (HF l Hl).
  destruct (validated_row l) as (names & sal & proj & ? & ? & ? & ?).
  - by eapply lineup_of_validated.
  - by eapply lineup_of_length.
  - by exists names, sal, proj.
Qed.

(** ** The script *)


End Properties.

(** * The theorems at work on the example roster *)

Section Instances.
Import Example.

Lemma check_valid_reject_untouched_witness :
  check_valid doubled (fresh 5 3) = Ok ((false, doubled), fresh 5 3) ∧
  (doubled = doubled ∧ fresh 5 3 = fresh 5 3).
Proof.
  split; [vm_compute; reflexivity|].
  apply (check_valid_reject_untouched doubled doubled (fresh 5 3) (fresh 5 3)).
  vm_compute; reflexivity.
Defined.

(** C6, as stated, fails: the list returned for the candidate [sound]
    is not accepted when passed back in; the call raises. *)
Lemma revalidation_raises :
  ∃ out, check_valid sound (fresh 5 3) = Ok ((true, out), fresh 5 3) ∧
         check_valid out (fresh 5 3) = Err TypeError.
Proof.
  eexists. split; [vm_compute; reflexivity|].
  vm_compute; reflexivity.
Qed.

Lemma check_valid_again_witness :
  let out := sound ++ [Int 44400; Float (931 # 10)] in
  check_valid sound (fresh 5 3) = Ok ((true, out), fresh 5 3) ∧
  (check_valid (take (length out - 2) out) (fresh 5 3) = Ok ((true, out), fresh 5 3) ∧
   check_valid out (fresh 5 3) = Err TypeError).
Proof.
  intros out. split; [vm_compute; reflexivity|].
  apply (check_valid_again sound out (fresh 5 3) (fresh 5 3)).
  vm_compute; reflexivity.
Defined.




Lemma added_lineups_validated_witness :
  let w := loaded 5 3 in
  let w' := outcome (get_lineups limit) w in
  get_lineups limit w = Ok (tt, w') ∧
  ∃ added,
    lineups (self w') = lineups (self w) ++ added ∧
    Forall (λ l, ∃ ps : list (player Q),
              l = (Player <$> ps) ++
                  [Int (sum_Z (salary <$> ps)); Float (round2 (fsum (avePoints <$> ps)))] ∧
              sum_Z (salary <$> ps) < 50000 ∧
              (3 ≤ size (list_to_set (teamAbbrev <$> ps) : gset string))%nat ∧
              size (list_to_set (name <$> ps) : gset string) = 9%nat)
           added.
Proof.
  intros w w'.
  assert (get_lineups limit w = Ok (tt, w')) as H by (vm_compute; reflexivity).
  split; [exact H|]. exact (added_lineups_validated limit w w' H).
Defined.

Lemma mate_lineups_origin_witness :
  let w := loaded 5 3 in
  let p1 := value [] (generate_lineup limit) w in
  let w1 := outcome (generate_lineup limit) w in
  let p2 := value [] (generate_lineup limit) w1 in
  let w2 := outcome (generate_lineup limit) w1 in
  let child := value [] (mate_lineups limit p1 p2) w2 in
  let w' := outcome (mate_lineups limit p1 p2) w2 in
  mate_lineups limit p1 p2 w2 = Ok (child, w') ∧
  ∀ c, c ∈ take 9 child →
    c ∈ take 9 p1 ∨ c ∈ take 9 p2 ∨
    ∃ p, c = Player p ∧
         (p ∈ centers (self w2) ∨ p ∈ wingers (self w2) ∨ p ∈ defencemen (self w2) ∨
          p ∈ goalies (self w2) ∨ p ∈ utils (self w2)).
Proof.
  intros w p1 w1 p2 w2 child w'.
  assert (mate_lineups limit p1 p2 w2 = Ok (child, w')) as H
    by (vm_compute; reflexivity).
  split; [exact H|].
  destruct (mate_lineups_origin limit p1 p2 w2 w' child H)
    as (w0 & xc & xw & xd & xg & xu & cs & ws & ds & gs & us & rc & rw & rd & rg & ru & Hrest).
  destruct Hrest as (sal & proj & _ & _ & Hextra & _ & _ & _ & _ & _ & _ & Horigin).
  intros c Hc. destruct (Horigin c Hc) as [?|[?|Hx]]; [by left|by right; left|].
  right; right. clear -Hextra Hx. revert Hextra Hx.
  generalize (self w2). intros g Hextra Hx.
  change (c ∈ [Player xc; Player xw; Player xd; Player xg; Player xu]) in Hx.
  rewrite !elem_of_cons in Hx.
  destruct Hx as [Hx|[Hx|[Hx|[Hx|[Hx|Hx]]]]]; [..|by apply elem_of_nil in Hx];
    eexists; (split; [exact Hx|tauto]).
Defined.

(** A record outside the input that the loader is specified for: the
    descriptor of Nolan, [LW/UTIL], begins with none of the four role
    codes.  The chain of tests has no last branch, so he enters the
    utility sequence and none of the positional ones. *)
Example descriptor_outside_role_codes :
  let g := self (loaded 5 3) in
  load_roster roster (fresh 5 3) = Ok (tt, loaded 5 3) ∧
  name <$> goalies g = ["Klein"; "Lopez"; "Zhang"]%string ∧
  name <$> centers g =
    ["Adams"; "Brown"; "Clark"; "Olsen"; "Reyes"; "Stone"]%string ∧
  name <$> wingers g =
    ["Davis"; "Evans"; "Frank"; "Ghosh"; "Price"; "Tovar"; "Unger"; "Vance"]%string ∧
  name <$> defencemen g =
    ["Hills"; "Irwin"; "Jones"; "Quinn"; "Walsh"; "Young"]%string ∧
  name <$> utils g =
    ["Adams"; "Brown"; "Clark"; "Davis"; "Evans"; "Frank"; "Ghosh"; "Hills";
     "Irwin"; "Jones"; "Olsen"; "Price"; "Quinn"; "Nolan"; "Reyes"; "Stone";
     "Tovar"; "Unger"; "Vance"; "Walsh"; "Young"]%string.
Proof. vm_compute. repeat split. Qed.


(** Only neighbours are compared: of the four rows [a; b; a; b] the first
    three are written, the first and the third being equal, and the last
    is not. *)
Example dedup_adjacent_only :
  let a := to_field <$> (sound ++ [Int 44400; Float (931 # 10)]) in
  let b := to_field <$> (swapped ++ [Int 44400; Float (931 # 10)]) in
  a ≠ b ∧
  table (self echoing) = [a; b; a; b] ∧
  save_file echoing =
    Ok ((header :: [a; b; a], header_for_upload :: [take 9 a; take 9 b; take 9 a]),
        echoing).
Proof.
  intros a b. split; [intros H; vm_compute in H; discriminate|].
  split; vm_compute; reflexivity.
Qed.


(** C10, as stated, fails.  With [num_lineups = 1] and no round completed
    the population is empty, fewer than [num_lineups], and yet
    [save_file] raises nothing: [range(0)] is empty and only the headers
    are written. *)
Lemma save_file_single_lineup :
  let w := outcome (run rounds limit) (loaded 1 0) in
  run rounds limit (loaded 1 0) = Ok (tt, w) ∧
  Z.of_nat (length (lineups (self w))) < num_lineups (self w) ∧
  save_file w = Ok (([header], [header_for_upload]), w).
Proof. vm_compute. repeat split. Qed.

Lemma save_file_short_population_witness :
  let w := outcome (run rounds limit) (loaded 100 0) in
  Z.of_nat (length (lineups (self w))) < num_lineups (self w) ∧
  2 ≤ num_lineups (self w) ∧
  save_file w = Err IndexError.
Proof.
  intros w.
  assert (Z.of_nat (length (lineups (self w))) < num_lineups (self w)) as H1
    by (vm_compute; reflexivity).
  assert (2 ≤ num_lineups (self w)) as H2 by (vm_compute; discriminate).
  split; [exact H1|]. split; [exact H2|].
  exact (save_file_short_population w H1 H2).
Defined.

(** The error is reached from the public interface: a fresh object, the
    roster loaded, a run that completes no round, and [save_file]. *)
Example save_file_raises_after_idle_run :
  (_ ← load_roster roster; _ ← run rounds limit; save_file) (fresh 100 0)
    = Err IndexError.
Proof. vm_compute. reflexivity. Qed.


(** ** Instances of the further properties *)

Lemma loaded_stocked : stocked (self (loaded 5 2)).
Proof. unfold stocked. repeat split; vm_compute; discriminate. Qed.

Lemma fresh_unstocked : ¬ stocked (self (fresh 5 2)).
Proof. intros [H _]. by apply H. Qed.

Lemma generate_lineup_first_accepted_witness :
  let w := loaded 5 2 in
  let l := value [] (generate_lineup limit) w in
  let w' := outcome (generate_lineup limit) w in
  generate_lineup limit w = Ok (l, w') ∧
  ∃ (k : nat) ps,
    (k < limit)%nat ∧
    candidate (self w) (9 * k + rand_pos w) = Some ps ∧
    within_rules ps ∧
    (∀ j, (j < k)%nat →
       ∃ qs, candidate (self w) (9 * j + rand_pos w) = Some qs ∧ ¬ within_rules qs) ∧
    l = (Player <$> ps) ++ [Int (total_salary ps); Float (projection ps)] ∧
    w' = advance (9 * S k) w.
Proof.
  intros w l w'.
  assert (generate_lineup limit w = Ok (l, w')) as H by (vm_compute; reflexivity).
  split; [exact H|].
  exact (proj1 (generate_lineup_first_accepted limit w w' l) H).
Defined.

Lemma generate_lineup_empty_sequence_witness :
  ¬ stocked (self (fresh 5 2)) ∧ generate_lineup 1 (fresh 5 2) = Err ValueError.
Proof.
  split; [exact fresh_unstocked|].
  exact (generate_lineup_empty_sequence 0 (fresh 5 2) fresh_unstocked).
Defined.

Lemma generate_lineup_two_teams_witness :
  stocked (self narrow) ∧
  Forall (λ p, teamAbbrev p = "BOS"%string ∨ teamAbbrev p = "NYR"%string)
         (all_players (self narrow)) ∧
  generate_lineup limit narrow = Err RecursionError.
Proof.
  assert (stocked (self narrow)) as Hs by (repeat split; discriminate).
  assert (Forall (λ p, teamAbbrev p = "BOS"%string ∨ teamAbbrev p = "NYR"%string)
                 (all_players (self narrow))) as Ht.
  { repeat (constructor; [first [left; reflexivity|right; reflexivity]|]).
    constructor. }
  split; [exact Hs|]. split; [exact Ht|].
  exact (generate_lineup_two_teams limit narrow "BOS"%string "NYR"%string Hs Ht).
Defined.

Lemma generate_lineup_errors_witness :
  generate_lineup 1 (fresh 5 2) = Err ValueError ∧
  (ValueError = RecursionError ∧ (stocked (self (fresh 5 2)) ∨ 1%nat = 0%nat) ∨
   ValueError = ValueError ∧ ¬ stocked (self (fresh 5 2)) ∧ 1%nat ≠ 0%nat).
Proof.
  assert (generate_lineup 1 (fresh 5 2) = Err ValueError) as H
    by (vm_compute; reflexivity).
  split; [exact H|].
  exact (generate_lineup_errors 1 (fresh 5 2) ValueError H).
Defined.

Lemma grab_players_draws_witness :
  (2 ≤ length sound)%nat ∧
  ∃ picked rest,
    grab_players sound 2 (fresh 5 2) = Ok ((picked, rest), advance 2 (fresh 5 2)) ∧
    length picked = 2%nat ∧ length rest = (length sound - 2)%nat ∧
    picked ++ rest ≡ₚ sound.
Proof.
  assert (2 ≤ length sound)%nat as H by (vm_compute; lia).
  split; [exact H|].
  exact (proj1 (grab_players_draws sound 2 (fresh 5 2)) H).
Defined.

Lemma mate_lineups_short_parent_witness :
  stocked (self (loaded 5 2)) ∧ (length (take 8 sound) < 9 ∨ length sound < 9)%nat ∧
  mate_lineups 1 (take 8 sound) sound (loaded 5 2) = Err IndexError.
Proof.
  assert (length (take 8 sound) < 9 ∨ length sound < 9)%nat as H
    by (left; vm_compute; lia).
  split; [exact loaded_stocked|]. split; [exact H|].
  exact (mate_lineups_short_parent 0 (take 8 sound) sound (loaded 5 2) loaded_stocked H).
Defined.

(** Two lineups generated on the loaded roster, to be mated. *)
Lemma generated_parents :
  let w := loaded 5 2 in
  let p1 := value [] (generate_lineup limit) w in
  let w1 := outcome (generate_lineup limit) w in
  let p2 := value [] (generate_lineup limit) w1 in
  let w2 := outcome (generate_lineup limit) w1 in
  lineup_of (self w2) p1 ∧ lineup_of (self w2) p2.
Proof.
  intros w p1 w1 p2 w2.
  assert (generate_lineup limit w = Ok (p1, w1)) as H1 by (vm_compute; reflexivity).
  assert (generate_lineup limit w1 = Ok (p2, w2)) as H2 by (vm_compute; reflexivity).
  assert (self w1 = self w) as E1 by (vm_compute; reflexivity).
  assert (self w2 = self w) as E2 by (vm_compute; reflexivity).
  pose proof (generate_lineup_lineup_of _ _ _ _ H1) as L1.
  pose proof (generate_lineup_lineup_of _ _ _ _ H2) as L2.
  rewrite E1 in L2. rewrite E2. by split.
Qed.

Lemma mate_lineups_child_slots_witness :
  let w := loaded 5 2 in
  let p1 := value [] (generate_lineup limit) w in
  let w1 := outcome (generate_lineup limit) w in
  let p2 := value [] (generate_lineup limit) w1 in
  let w2 := outcome (generate_lineup limit) w1 in
  let child := value [] (mate_lineups limit p1 p2) w2 in
  let w' := outcome (mate_lineups limit p1 p2) w2 in
  mate_lineups limit p1 p2 w2 = Ok (child, w') ∧
  lineup_of (self w2) child ∧
  ∃ k : nat, (k < limit)%nat ∧ w' = advance (14 * S k) w2.
Proof.
  intros w p1 w1 p2 w2 child w'.
  assert (mate_lineups limit p1 p2 w2 = Ok (child, w')) as H
    by (vm_compute; reflexivity).
  split; [exact H|].
  exact (mate_lineups_child_slots limit p1 p2 w2 w' child
           (proj1 generated_parents) (proj2 generated_parents) H).
Defined.

(** Three attempts on the generated parents, each rejected by
    [check_valid]: the fourth call is refused. *)
Lemma mate_lineups_only_recursion_error_witness :
  let w := loaded 5 2 in
  let p1 := value [] (generate_lineup limit) w in
  let w1 := outcome (generate_lineup limit) w in
  let p2 := value [] (generate_lineup limit) w1 in
  let w2 := outcome (generate_lineup limit) w1 in
  mate_lineups 3 p1 p2 w2 = Err RecursionError ∧ RecursionError = RecursionError.
Proof.
  intros w p1 w1 p2 w2.
  assert (mate_lineups 3 p1 p2 w2 = Err RecursionError) as H
    by (vm_compute; reflexivity).
  split; [exact H|].
  exact (mate_lineups_only_recursion_error 3 p1 p2 w2 RecursionError
           (proj1 generated_parents) (proj2 generated_parents) H).
Defined.

Lemma check_valid_raises_iff_witness :
  let out := sound ++ [Int 44400; Float (931 # 10)] in
  check_valid out (fresh 5 2) = Err TypeError ∧
  (TypeError = TypeError ∧ ∃ c, c ∈ out ∧ ∀ p, c ≠ Player p).
Proof.
  intros out.
  assert (check_valid out (fresh 5 2) = Err TypeError) as H by (vm_compute; reflexivity).
  split; [exact H|].
  exact (proj1 (check_valid_raises_iff out (fresh 5 2) TypeError) H).
Defined.

Lemma check_valid_accepted_distinct_witness :
  let out := sound ++ [Int 44400; Float (931 # 10)] in
  check_valid sound (fresh 5 2) = Ok ((true, out), fresh 5 2) ∧
  ∃ ps, sound = Player <$> ps ∧ (9 ≤ length ps)%nat ∧
        (length ps = 9%nat → NoDup (name <$> ps) ∧ NoDup ps).
Proof.
  intros out.
  assert (check_valid sound (fresh 5 2) = Ok ((true, out), fresh 5 2)) as H
    by (vm_compute; reflexivity).
  split; [exact H|].
  exact (check_valid_accepted_distinct sound out (fresh 5 2) (fresh 5 2) H).
Defined.

(** The validator counts names, not cells: a tenth player whose name is
    already in the candidate, within the salary cap, is accepted. *)
Example check_valid_accepts_ten_cells :
  ∃ out, check_valid (sound ++ [Player adams]) (fresh 5 2) = Ok ((true, out), fresh 5 2) ∧
         length out = 12%nat.
Proof. eexists. split; vm_compute; reflexivity. Qed.


Lemma run_config_unchanged_witness :
  let w := loaded 5 2 in
  let w' := outcome (run rounds limit) w in
  run rounds limit w = Ok (tt, w') ∧ config (self w') = config (self w).
Proof.
  intros w w'.
  assert (run rounds limit w = Ok (tt, w')) as H by (vm_compute; reflexivity).
  split; [exact H|]. exact (run_config_unchanged rounds limit w w' H).
Defined.

Lemma loaded_population : Forall (lineup_of (self (loaded 5 2))) (lineups (self (loaded 5 2))).
Proof.
  assert (lineups (self (loaded 5 2)) = []) as -> by (vm_compute; reflexivity).
  constructor.
Qed.


Lemma run_population_lineups_witness :
  let w := loaded 5 2 in
  let w' := outcome (run rounds limit) w in
  Forall (lineup_of (self w)) (lineups (self w)) ∧
  run rounds limit w = Ok (tt, w') ∧
  Forall (lineup_of (self w)) (lineups (self w')).
Proof.
  intros w w'.
  assert (run rounds limit w = Ok (tt, w')) as H by (vm_compute; reflexivity).
  split; [exact loaded_population|]. split; [exact H|].
  exact (run_population_lineups rounds limit w w' loaded_population H).
Defined.


Lemma run_errors_witness :
  stocked (self narrow) ∧
  Forall (lineup_of (self narrow)) (lineups (self narrow)) ∧
  run rounds 25 narrow = Err RecursionError ∧
  (RecursionError = RecursionError ∨ RecursionError = OutOfFuel).
Proof.
  assert (stocked (self narrow)) as Hs by (repeat split; discriminate).
  assert (Forall (lineup_of (self narrow)) (lineups (self narrow))) as HF
    by constructor.
  assert (run rounds 25 narrow = Err RecursionError) as H
    by (vm_compute; reflexivity).
  split; [exact Hs|]. split; [exact HF|]. split; [exact H|].
  exact (run_errors rounds 25 narrow RecursionError Hs HF H).
Defined.

Lemma run_before_load_roster_witness :
  let w := fresh 5 2 in
  ¬ stocked (self w) ∧
  clock (S (clock_pos w)) < clock (clock_pos w) + duration (self w) ∧
  run 1 1 w = Err ValueError.
Proof.
  intros w.
  assert (clock (S (clock_pos w)) < clock (clock_pos w) + duration (self w)) as Ht
    by (vm_compute; reflexivity).
  split; [exact fresh_unstocked|]. split; [exact Ht|].
  exact (run_before_load_roster 0 0 w fresh_unstocked Ht).
Defined.

Lemma load_roster_errors_witness :
  let rows := take 7 roster in
  (length rows < 8)%nat ∧ load_roster rows (fresh 5 2) = Err StopIteration.
Proof.
  intros rows.
  assert (length rows < 8)%nat as H by (vm_compute; lia).
  split; [exact H|].
  exact (proj2 (proj1 (load_roster_errors rows (fresh 5 2))) H).
Defined.

(** A row with too few columns, and a salary that is not a number. *)
Example load_roster_bad_rows :
  load_roster (roster ++ [["Adams"; "C"]%string]) (fresh 5 2) = Err IndexError ∧
  load_roster (roster ++ [csv_row "Moore" "C/UTIL" "n/a" "BOS" "0"]) (fresh 5 2)
    = Err ValueError.
Proof. split; vm_compute; reflexivity. Qed.

Lemma load_roster_row_format_witness :
  let w := fresh 5 2 in
  let w' := loaded 5 2 in
  load_roster roster w = Ok (tt, w') ∧
  Forall (λ row, (19 ≤ length row)%nat ∧
                 (∃ c descr, row !! 14%nat = Some (String c descr)) ∧
                 (∃ s n, row !! 15%nat = Some s ∧ py_int s = Some n) ∧
                 (∃ s x, row !! 18%nat = Some s ∧ py_float s = Some x))
         (drop 8 roster) ∧
  lineups (self w') = lineups (self w) ∧
  rand_pos w' = rand_pos w ∧ clock_pos w' = clock_pos w.
Proof.
  intros w w'.
  assert (load_roster roster w = Ok (tt, w')) as H by (vm_compute; reflexivity).
  split; [exact H|]. exact (load_roster_row_format roster w w' H).
Defined.

Lemma loaded_run_positions_witness :
  let w0 := fresh 5 2 in
  let w := loaded 5 2 in
  let w' := outcome (run rounds limit) w in
  self w0 = init 5 2 ∧
  load_roster roster w0 = Ok (tt, w) ∧
  run rounds limit w = Ok (tt, w') ∧
  length (lineups (self w')) = 5%nat ∧
  Forall positioned (lineups (self w')).
Proof.
  intros w0 w w'.
  assert (load_roster roster w0 = Ok (tt, w)) as H1 by (vm_compute; reflexivity).
  assert (run rounds limit w = Ok (tt, w')) as H2 by (vm_compute; reflexivity).
  split; [reflexivity|]. split; [exact H1|]. split; [exact H2|].
  split; [vm_compute; reflexivity|].
  exact (loaded_run_positions roster rounds limit 5 2 w0 w w' eq_refl H1 H2).
Defined.

Lemma save_file_raises_iff_witness :
  let w := fresh 5 2 in
  save_file w = Err IndexError ∧
  (IndexError = IndexError ∧ 2 ≤ num_lineups (self w) ∧
   Z.of_nat (length (lineups (self w))) < num_lineups (self w)).
Proof.
  intros w.
  assert (save_file w = Err IndexError) as H by (vm_compute; reflexivity).
  split; [exact H|]. exact (proj1 (save_file_raises_iff w IndexError) H).
Defined.

Lemma save_file_row_shape_witness :
  let w0 := loaded 5 2 in
  let w := outcome (run rounds limit) w0 in
  let out := value ([], []) save_file w in
  Forall (lineup_of (self w0)) (lineups (self w)) ∧
  save_file w = Ok (out, w) ∧
  ∃ rows,
    out.1 = header :: rows ∧
    out.2 = header_for_upload :: (py_take 9 <$> rows) ∧
    Z.of_nat (length rows) ≤ Z.max 0 (num_lineups (self w) - 1) ∧
    Forall (λ r, ∃ names sal proj,
              length names = 9%nat ∧ NoDup names ∧
              r = (FStr <$> names) ++ [FInt sal; FFloat proj] ∧
              py_take 9 r = FStr <$> names) rows.
Proof.
  intros w0 w out.
  assert (run rounds limit w0 = Ok (tt, w)) as Hrun by (vm_compute; reflexivity).
  assert (Forall (lineup_of (self w0)) (lineups (self w))) as HF.
  { destruct (run_keeps (self w0) (λ _, True) rounds limit w0 w) as [[_ ?] _];
      [done|split; [done|exact loaded_population]|done|exact Hrun|done]. }
  assert (save_file w = Ok ((out.1, out.2), w)) as H by (vm_compute; reflexivity).
  split; [exact HF|]. split; [vm_compute; reflexivity|].
  exact (save_file_row_shape (self w0) w w out.1 out.2 HF H).
Defined.


End Instances.
